(** * WitheringMixin: generation-based withering of tree nodes

    A shallow embedding of [src/witheringMixin.js] and the properties of
    its age comparator, eligibility rule, withering sweep, rejuvenation
    hooks and merge hook.

    Conventions of the embedding:
    - JavaScript values that reach the mixin's fields are [undefined],
      booleans and integer numbers: [VNum z] is the double whose value is
      the integer [z].  Comparisons of doubles are exact.  An addition or
      a subtraction gives the double nearest to the exact result (ties to
      the even significand, infinity beyond the largest double), as
      binary64 arithmetic does; [NaN] arises from [undefined].
    - A node is an immutable term; a method that mutates [this] returns the
      node after the call next to its result.
    - The host class the mixin extends ([Base]) is not part of the mixin:
      its constructor and its methods [clear], [remove], [mergeAfter],
      [traverse] and [getUncachedRange] are the fields of a class, and the
      mixin's methods are defined over any instance of it.
    - [wither] recurses into children through a loop whose length the
      host's [remove] decides, so it takes fuel; that the fuel suffices is
      proved for the host modelled from the spec. *)

From Stdlib Require Import ZArith Bool Lia.
From stdpp Require Import base list.

Local Open Scope Z_scope.

(** ** JavaScript values and operators *)

Module JS.

Inductive value : Type :=
  | VUndef
  | VBool (b : bool)
  | VNum (z : Z).

(** A number after [ToNumber]; [None] is [NaN]. *)
Definition number : Type := option Z.

Definition to_number (v : value) : number :=
  match v with
  | VUndef => None
  | VBool b => Some (if b then 1 else 0)
  | VNum z => Some z
  end.

(** [ToBoolean]. *)
Definition truthy (v : value) : bool :=
  match v with
  | VUndef => false
  | VBool b => b
  | VNum z => negb (z =? 0)
  end.

(** [typeof v === 'number'] *)
Definition is_number (v : value) : bool :=
  match v with VNum _ => true | _ => false end.

(** [v === false] *)
Definition is_false (v : value) : bool :=
  match v with VBool false => true | _ => false end.

(** Relational operators: any comparison with [NaN] is [false]. *)
Definition rel (op : Z -> Z -> bool) (a b : number) : bool :=
  match a, b with
  | Some x, Some y => op x y
  | _, _ => false
  end.

Definition gt : number -> number -> bool := rel Z.gtb.
Definition le : number -> number -> bool := rel Z.leb.
Definition ge : number -> number -> bool := rel Z.geb.

(** A double that an addition or subtraction of integer doubles gives:
    [NaN], an infinity, or an integer. *)
Inductive double : Type :=
  | DNaN
  | DInf (negative : bool)
  | DInt (z : Z).

Definition of_number (a : number) : double :=
  match a with
  | Some z => DInt z
  | None => DNaN
  end.

(** Rounding of a natural number [m] to 53 significant bits: the bits
    below [2 ^ exponent m] are dropped, to nearest, ties to even. *)
Definition exponent (m : Z) : Z := Z.max 0 (Z.log2 m - 52).

Definition nearest_multiple (u m : Z) : Z :=
  let q := m / u in
  let r := m mod u in
  if 2 * r <? u then q * u
  else if u <? 2 * r then (q + 1) * u
  else if Z.even q then q * u else (q + 1) * u.

Definition nearest (m : Z) : Z := nearest_multiple (2 ^ exponent m) m.

(** [Number.MAX_VALUE] *)
Definition max_double : Z := (2 ^ 53 - 1) * 2 ^ 971.

(** The double that stands for the exact integer result [s]. *)
Definition round (s : Z) : double :=
  let m := nearest (Z.abs s) in
  if max_double <? m then DInf (s <? 0) else DInt (Z.sgn s * m).

Arguments round s : simpl never.

Definition opp (a : double) : double :=
  match a with
  | DNaN => DNaN
  | DInf s => DInf (negb s)
  | DInt z => DInt (- z)
  end.

(** [a + b] and [a - b] on numbers. *)
Definition add (a b : double) : double :=
  match a, b with
  | DNaN, _ | _, DNaN => DNaN
  | DInf s, DInf s' => if eqb s s' then DInf s else DNaN
  | DInf s, DInt _ | DInt _, DInf s => DInf s
  | DInt x, DInt y => round (x + y)
  end.

Definition sub (a b : double) : double := add a (opp b).

(** [a > b] on the result of an addition or subtraction. *)
Definition dgt (a b : double) : bool :=
  match a, b with
  | DNaN, _ | _, DNaN => false
  | DInf false, DInf false => false
  | DInf false, _ => true
  | _, DInf false => false
  | DInf true, _ => false
  | DInt _, DInf true => true
  | DInt x, DInt y => x >? y
  end.

(** The order of the doubles, [NaN] apart. *)
Definition dle (a b : double) : bool :=
  match a, b with
  | DNaN, _ | _, DNaN => false
  | DInf true, _ => true
  | _, DInf false => true
  | DInf false, _ => false
  | _, DInf true => false
  | DInt x, DInt y => x <=? y
  end.

(** What a call produces: it returns, or it throws (a [TypeError] on a
    property access through [undefined]). *)
Inductive outcome (A : Type) : Type :=
  | Return (a : A)
  | Throw.
Arguments Return {A} a.
Arguments Throw {A}.

End JS.
Import JS.

(** ** Data model *)

(** The owning tree, as far as the mixin reads it.  [MAX_GENERATION] is
    [this.tree.constructor.MAX_GENERATION], a constant of the tree's class. *)
Record Tree : Type := mkTree {
  _currGen : Z;
  lifeSpan : value;
  neighboringLinks : bool;
  MAX_GENERATION : Z
}.

(** A node with the mixin applied, and what a slot of its [values] array
    holds: [null], [false], an object of a class without the mixin (of
    which the mixin reads the properties [_lastUpdateGen] and
    [_shouldWither], [undefined] when it has none), or a child node with
    the mixin. *)
Inductive node : Type :=
  | Node (tr : option Tree) (gen : value) (vals : list slot)
with slot : Type :=
  | SNull
  | SFalse
  | SObj (gen : value) (sw : value)
  | SChild (c : node).

Definition tree (n : node) : option Tree :=
  match n with Node tr _ _ => tr end.

Definition _lastUpdateGen (n : node) : value :=
  match n with Node _ g _ => g end.

Definition values (n : node) : list slot :=
  match n with Node _ _ vs => vs end.

Definition set_lastUpdateGen (n : node) (g : value) : node :=
  match n with Node tr _ vs => Node tr g vs end.

Definition set_values (n : node) (vs : list slot) : node :=
  match n with Node tr g _ => Node tr g vs end.

(** Modelled from the spec: the getter [childNum] of the host node class,
    which is not in src/; the number of child slots the node holds. *)
Definition childNum (n : node) : nat := length (values n).

(** Modelled from the spec: the getter [firstChild] of the host node class,
    which is not in src/; the first child slot, [undefined] ([None]) when
    there is none. *)
Definition firstChild (n : node) : option slot := values n !! 0%nat.

(** [s] in a boolean context: [null], [false] and [undefined] are falsy,
    every object is truthy. *)
Definition slot_truthy (s : option slot) : bool :=
  match s with
  | Some (SObj _ _) | Some (SChild _) => true
  | _ => false
  end.

(** [s === null] *)
Definition slot_is_null (s : option slot) : bool :=
  match s with Some SNull => true | _ => false end.

(** [this.tree && this.tree.lifeSpan], as a condition. *)
Definition tracking (n : node) : bool :=
  match tree n with
  | Some t => truthy (lifeSpan t)
  | None => false
  end.

(** ** The age comparator *)

(** [_genOlderThan (generationToComp)]: the [&&] chain returns its first
    falsy operand, or its last operand. *)
Definition _genOlderThan (n : node) (generationToComp : value) : value :=
  match tree n with
  | None => VUndef
  | Some t =>
      if negb (truthy (lifeSpan t)) then lifeSpan t
      else if negb (gt (to_number generationToComp)
                       (to_number (_lastUpdateGen n)))
      then VBool false
      else VBool (eqb (le (to_number generationToComp) (Some (_currGen t)))
                      (le (to_number (_lastUpdateGen n)) (Some (_currGen t))))
  end.

(** ** The eligibility rule *)

(** The age test of [_shouldWither]. *)
Definition too_old (t : Tree) (g : value) : bool :=
  if ge (Some (_currGen t)) (to_number g)
  then dgt (sub (DInt (_currGen t)) (of_number (to_number g)))
           (of_number (to_number (lifeSpan t)))
  else dgt (add (DInt (_currGen t))
                (sub (DInt (MAX_GENERATION t)) (of_number (to_number g))))
           (of_number (to_number (lifeSpan t))).

(** The getter [_shouldWither].  The first child is inspected in place so
    that the recursion into a child node is structural; [first_child_young]
    below is the same test on [firstChild]. *)
Fixpoint _shouldWither (n : node) : value :=
  match n with
  | Node None _ _ => VBool false
  | Node (Some t) g vs =>
      if negb (truthy (lifeSpan t)) then VBool false
      else
        let first_young :=
          match vs with
          | SChild c :: _ => is_false (_shouldWither c)
          | SObj _ sw :: _ => is_false sw
          | _ => false
          end in
        VBool (negb first_young && too_old t g)
  end.

(** [_shouldWither] of whatever sits in a slot. *)
Definition slot_shouldWither (s : option slot) : value :=
  match s with
  | Some (SChild c) => _shouldWither c
  | Some (SObj _ sw) => sw
  | _ => VUndef
  end.

(** [this.firstChild && this.firstChild._shouldWither === false] *)
Definition first_child_young (n : node) : bool :=
  slot_truthy (firstChild n) && is_false (slot_shouldWither (firstChild n)).

(** ** Rejuvenation *)

Definition rejuvenate (n : node) : node :=
  match tree n with
  | Some t => if truthy (lifeSpan t) then set_lastUpdateGen n (VNum (_currGen t)) else n
  | None => n
  end.

(** ** The host class *)

(** The configuration object [props] that the constructor and the wrapped
    entry points receive, as far as the mixin reads it. *)
Record Props : Type := mkProps {
  p_currGen : value;      (* props._currGen *)
  doNotWither : value     (* props.doNotWither *)
}.

(** [Base], the class the mixin extends.  None of it is in src/; the mixin
    only calls it, so it is an interface here.
    - [Args] stands for the arguments a wrapped entry point forwards
      untouched, [Res] for what the host's operations return.
    - [super_constructor props] is [this] after [super(...arguments)].
    - [clear this sentinel] and [remove this index shouldDetach sentinel]
      are the node after the call; the child handed to [remove] is the
      occupant of slot [index].
    - [super_mergeAfter], [super_traverse] and [super_getUncachedRange]
      give the node after the call and the call's result; the last two are
      optional ([typeof super.traverse === 'function']). *)
Class Base : Type := mkBase {
  Args : Type;
  Res : Type;
  res_truthy : Res -> bool;
  super_constructor : option Props -> node;
  clear : node -> slot -> node;
  remove : node -> nat -> bool -> slot -> node;
  super_mergeAfter : node -> option node -> node * Res;
  super_traverse : option (node -> Args -> option Props -> node * Res);
  super_getUncachedRange : option (node -> Args -> option Props -> node * Res)
}.

(** ** The mixin's methods that call the host *)

Section Mixin.
Context {B : Base}.

(** [constructor (props)] *)
Definition constructor (props : option Props) : outcome node :=
  let this := super_constructor props in
  if match props with Some p => truthy (p_currGen p) | None => false end
     || tracking this
  then
    match props with
    | None => Throw
    | Some p =>
        if truthy (p_currGen p)
        then Return (set_lastUpdateGen this (p_currGen p))
        else
          match tree this with
          | Some t => Return (set_lastUpdateGen this (VNum (_currGen t)))
          | None => Throw
          end
    end
  else Return this.

(** [node ? (node._lastUpdateGen || this._lastUpdateGen)
    : this._lastUpdateGen], the [nodeGen] of [mergeAfter]. *)
Definition nodeGen (this : node) (nd : option node) : value :=
  match nd with
  | Some nd' =>
      if truthy (_lastUpdateGen nd') then _lastUpdateGen nd'
      else _lastUpdateGen this
  | None => _lastUpdateGen this
  end.

(** [mergeAfter (node)]; [nodeGen] is read before the host's merge runs. *)
Definition mergeAfter (this : node) (nd : option node) : node * Res :=
  let gen := nodeGen this nd in
  let (this1, result) := super_mergeAfter this nd in
  if res_truthy result then
    if truthy (_genOlderThan this1 gen)
    then (set_lastUpdateGen this1 gen, result)
    else (this1, result)
  else (this1, result).

(** An assumption on the host: its [mergeAfter] leaves the receiver's tree
    reference and stamp alone (the stamp is the mixin's property). *)
Definition merge_keeps_stamp (this : node) (nd : option node) : Prop :=
  tree (fst (super_mergeAfter this nd)) = tree this /\
  _lastUpdateGen (fst (super_mergeAfter this nd)) = _lastUpdateGen this.

(** One round of the [forEach] of the skew repair in [wither]. *)
Definition slot_lastUpdateGen (s : slot) : value :=
  match s with
  | SChild c => _lastUpdateGen c
  | SObj g _ => g
  | _ => VUndef
  end.

Definition repair_step (this : node) (s : slot) : node :=
  if slot_truthy (Some s)
     && is_number (slot_lastUpdateGen s)
     && truthy (_genOlderThan this (slot_lastUpdateGen s))
  then set_lastUpdateGen this (slot_lastUpdateGen s)
  else this.

Definition skew_repair (this : node) : node :=
  fold_left repair_step (values this) this.

(** The node as the self-eviction check of [wither] sees it: after the
    skew repair when the tree has [neighboringLinks], as it was otherwise. *)
Definition repaired (this : node) : node :=
  match tree this with
  | Some t => if neighboringLinks t then skew_repair this else this
  | None => this
  end.

(** [this.values[index] = child] after the child was mutated in place. *)
Definition put_child (this : node) (index : nat) (child : node) : node :=
  set_values this (<[index := SChild child]> (values this)).

(** [this.childNum <= 1 && this.values[0] === null] *)
Definition collapsed (this : node) : bool :=
  (childNum this <=? 1)%nat && slot_is_null (values this !! 0%nat).

(** [wither ()], and its [for] loop from the state before the test
    [index < this.childNum].  Each call and each round of the loop takes
    one unit of [fuel]; [None] means the fuel ran out. *)
Fixpoint wither (fuel : nat) (this : node) : option (outcome (node * bool)) :=
  match fuel with
  | O => None
  | S fuel' =>
      match tree this with
      | None => Some Throw
      | Some t =>
          let this1 := if neighboringLinks t then skew_repair this else this in
          if truthy (_shouldWither this1)
          then Some (Return (clear this1 SNull, true))
          else sweep fuel' this1 0
      end
  end
with sweep (fuel : nat) (this : node) (index : nat)
    : option (outcome (node * bool)) :=
  match fuel with
  | O => None
  | S fuel' =>
      if (index <? childNum this)%nat then
        match values this !! index with
        | Some (SChild child) =>
            match wither fuel' child with
            | None => None
            | Some Throw => Some Throw
            | Some (Return (child', withered)) =>
                let this1 := put_child this index child' in
                if withered
                then sweep fuel' (remove this1 index true SNull) index
                else sweep fuel' this1 (S index)
            end
        | _ => sweep fuel' this (S index)
        end
      else Some (Return (this, collapsed this))
  end.

(** [let result; if (typeof super.op === 'function') { result =
    super.op (...arguments) }]: the node after the statement, and [result]
    ([None] is [undefined]). *)
Definition call_super
    (op : option (node -> Args -> option Props -> node * Res))
    (this : node) (args : Args) (props : option Props) : node * option Res :=
  match op with
  | Some f => let (this1, r) := f this args props in (this1, Some r)
  | None => (this, None)
  end.

(** [!props || !props.doNotWither] *)
Definition may_rejuvenate (props : option Props) : bool :=
  match props with
  | None => true
  | Some p => negb (truthy (doNotWither p))
  end.

(** [traverse (chrRange, callback, filter, breakOnFalse, props, ...args)];
    [args] stands for every argument but [props]. *)
Definition traverse (this : node) (args : Args) (props : option Props)
    : node * option Res :=
  let (this1, result) := call_super super_traverse this args props in
  if may_rejuvenate props then (rejuvenate this1, result)
  else (this1, result).

(** [getUncachedRange (chrRange, props, ...args)] *)
Definition getUncachedRange (this : node) (args : Args) (props : option Props)
    : node * option Res :=
  let (this1, result) := call_super super_getUncachedRange this args props in
  if may_rejuvenate props then (rejuvenate this1, result)
  else (this1, result).

End Mixin.

(** ** A host to run the sweep on *)

(** Modelled from the spec: the host's [clear (sentinel)], which is not in
    src/; it replaces the node's content with the empty sentinel. *)
Definition clear_spec (this : node) (sentinel : slot) : node :=
  set_values this [sentinel].

(** Modelled from the spec: the host's [remove (child, shouldDetach,
    sentinel)], which is not in src/; it detaches the child, and the
    children after it shift left. *)
Definition remove_spec (this : node) (index : nat) (shouldDetach : bool)
    (sentinel : slot) : node :=
  set_values this (delete index (values this)).

(** Modelled from the spec: the host's [mergeAfter (node)], which is not in
    src/; it merges the other node's content into this one and reports
    whether it did. *)
Definition mergeAfter_spec (this : node) (nd : option node) : node * bool :=
  match nd with
  | Some nd' => (set_values this (values this ++ values nd'), true)
  | None => (this, false)
  end.

(** A host with these primitives, whose nodes belong to the tree [t];
    its read operations return [true] and leave the node as it is. *)
Definition SpecBase (t : Tree) : Base := {|
  Args := unit;
  Res := bool;
  res_truthy := fun b => b;
  super_constructor := fun _ => Node (Some t) VUndef [SNull];
  clear := clear_spec;
  remove := remove_spec;
  super_mergeAfter := mergeAfter_spec;
  super_traverse := Some (fun this _ _ => (this, true));
  super_getUncachedRange := None
|}.

(** ** The spec's vocabulary *)

(** "Generation tracking is active for the tree ([lifeSpan] set)". *)
Definition tracking_active (n : node) : Prop :=
  exists t, tree n = Some t /\ truthy (lifeSpan t) = true.

(** "[otherStamp] is numerically greater than [ownStamp]". *)
Definition numerically_greater (other own : value) : Prop :=
  exists a b, to_number other = Some a /\ to_number own = Some b /\ a > b.

(** "either both are [<= currentGeneration] or both are
    [> currentGeneration]". *)
Definition same_side (currentGeneration : Z) (other own : value) : Prop :=
  exists a b, to_number other = Some a /\ to_number own = Some b /\
    ((a <= currentGeneration /\ b <= currentGeneration) \/
     (a > currentGeneration /\ b > currentGeneration)).

(** "if [currentGeneration >= lastUpdateGeneration],
    [age = currentGeneration - lastUpdateGeneration]; otherwise (wrapped)
    [age = currentGeneration + (MAX_GENERATION - lastUpdateGeneration)]". *)
Definition age (currentGeneration MAX lastUpdateGeneration : Z) : Z :=
  if currentGeneration >=? lastUpdateGeneration
  then currentGeneration - lastUpdateGeneration
  else currentGeneration + (MAX - lastUpdateGeneration).

(** "A node's stamp only ever moves forward (toward the current
    generation) or is left untouched": the stamp is the same, or it is now
    a number whose age is below the age the old stamp had, if it had one. *)
Definition not_backward (t : Tree) (old new : value) : Prop :=
  new = old \/
  exists b, to_number new = Some b /\
    forall a, to_number old = Some a ->
      age (_currGen t) (MAX_GENERATION t) b
        < age (_currGen t) (MAX_GENERATION t) a.

(** "Generation numbers are drawn from a bounded cyclic range
    [[0, MAX_GENERATION)]": the clock is in range, and the stamp is unset
    or a number in range. *)
Definition in_range (t : Tree) (g : value) : Prop :=
  0 <= _currGen t < MAX_GENERATION t /\
  (g = VUndef \/ exists z, g = VNum z /\ 0 <= z < MAX_GENERATION t).

(** Clock, stamp and modulus are such that the age is computed exactly:
    they are in the cyclic range [[0, MAX_GENERATION)], and the modulus is
    at most [2 ^ 53], so every difference and sum the age test takes is an
    integer that a double holds. *)
Definition exact_range (t : Tree) (g : Z) : Prop :=
  0 <= _currGen t < MAX_GENERATION t /\
  0 <= g < MAX_GENERATION t /\
  MAX_GENERATION t <= 2 ^ 53.

(** ** Measures and predicates over subtrees *)

(** Fuel that suffices for [wither] on a node with the host above: one
    unit for the call, one for the loop's exit, and one per slot on top of
    what the slot's child needs. *)
Fixpoint budget (n : node) : nat :=
  match n with
  | Node _ _ vs =>
      S (S ((fix slots (l : list slot) : nat :=
               match l with
               | [] => O
               | SChild c :: r => S (budget c + slots r)
               | _ :: r => S (slots r)
               end) vs))
  end.

Fixpoint slots_budget (l : list slot) : nat :=
  match l with
  | [] => O
  | SChild c :: r => S (budget c + slots_budget r)
  | _ :: r => S (slots_budget r)
  end.

(** [P] holds of the node and of every node below it. *)
Fixpoint all_nodes (P : node -> bool) (n : node) : bool :=
  match n with
  | Node _ _ vs =>
      P n && (fix slots (l : list slot) : bool :=
                match l with
                | [] => true
                | SChild c :: r => all_nodes P c && slots r
                | _ :: r => slots r
                end) vs
  end.

Fixpoint all_slots (P : node -> bool) (l : list slot) : bool :=
  match l with
  | [] => true
  | SChild c :: r => all_nodes P c && all_slots P r
  | _ :: r => all_slots P r
  end.

(** The node has its back-reference to the owning tree. *)
Definition has_tree (n : node) : bool :=
  match tree n with Some _ => true | None => false end.

(** The node has its tree, and the tree's [lifeSpan] is absent or zero. *)
Definition untracked (n : node) : bool :=
  match tree n with
  | Some t => negb (truthy (lifeSpan t))
  | None => false
  end.

(** [child && typeof child.wither === 'function'] *)
Definition witherable (s : option slot) : bool :=
  match s with Some (SChild _) => true | _ => false end.

(** [c.wither ()] leaves [c'] and returns [b]. *)
Definition withers {B : Base} (c c' : node) (b : bool) : Prop :=
  exists fuel, wither fuel c = Some (Return (c', b)).

(** What the sweep makes of a list of slots, in index order, given what
    [wither] makes of each child: [w c c' b] reads "[c.wither ()] leaves
    [c'] and returns [b]". *)
Inductive swept (w : node -> node -> bool -> Prop)
    : list slot -> list slot -> Prop :=
  | swept_nil : swept w [] []
  | swept_untouched (s : slot) (l l' : list slot) :
      witherable (Some s) = false ->
      swept w l l' ->
      swept w (s :: l) (s :: l')
  | swept_detached (c c' : node) (l l' : list slot) :
      w c c' true ->
      swept w l l' ->
      swept w (SChild c :: l) l'
  | swept_kept (c c' : node) (l l' : list slot) :
      w c c' false ->
      swept w l l' ->
      swept w (SChild c :: l) (SChild c' :: l').

(** Structural pruning, with no reference to generations: a child that is
    left holding at most one slot, and [null] in it, is dropped. *)
Fixpoint prune (n : node) : node :=
  match n with
  | Node tr g vs =>
      Node tr g
        ((fix slots (l : list slot) : list slot :=
            match l with
            | [] => []
            | SChild c :: r =>
                if collapsed (prune c) then slots r
                else SChild (prune c) :: slots r
            | s :: r => s :: slots r
            end) vs)
  end.

Fixpoint prune_slots (l : list slot) : list slot :=
  match l with
  | [] => []
  | SChild c :: r =>
      if collapsed (prune c) then prune_slots r
      else SChild (prune c) :: prune_slots r
  | s :: r => s :: prune_slots r
  end.

(** ** Nodes for the examples *)

Module Ex.

(** A tree with [lifeSpan = 10] at generation 20, with and without
    neighbouring links, and one with no [lifeSpan]. *)
Definition linked : Tree := mkTree 20 (VNum 10) true 100.
Definition plain : Tree := mkTree 20 (VNum 10) false 100.
Definition off : Tree := mkTree 20 VUndef true 100.

(** A tree at generation 10, far from the wrap. *)
Definition ten : Tree := mkTree 10 (VNum 10) false 100.

(** A leaf of tree [t] stamped [g] that holds one data object. *)
Definition leaf (t : Tree) (g : Z) : node :=
  Node (Some t) (VNum g) [SObj VUndef VUndef].

(** A node stamped 5 (age 15) whose first slot is [null] and whose second
    slot is a leaf stamped 18 (age 2). *)
Definition stale_parent (t : Tree) : node :=
  Node (Some t) (VNum 5) [SNull; SChild (leaf t 18)].

(** A node stamped 19 with three children: two leaves stamped 5 and 6,
    then a leaf stamped 18. *)
Definition three (t : Tree) : node :=
  Node (Some t) (VNum 19)
    [SChild (leaf t 5); SChild (leaf t 6); SChild (leaf t 18)].

End Ex.

(** ** Further vocabulary *)

(** The chain of first children below a node: its first child when that is
    a node with the mixin, that child's first child, and so on. *)
Fixpoint first_chain (n : node) : list node :=
  match n with
  | Node _ _ (SChild c :: _) => c :: first_chain c
  | _ => []
  end.

(** The comparator's answer taken as a condition, as [mergeAfter] and the
    skew repair take it: [this] is older than the stamp [g]. *)
Definition older (this : node) (g : value) : Prop :=
  truthy (_genOlderThan this g) = true.

(** A slot whose stamp the skew repair looks at:
    [value && typeof value._lastUpdateGen === 'number']. *)
Definition repair_looks_at (s : slot) : bool :=
  slot_truthy (Some s) && is_number (slot_lastUpdateGen s).

(** * Properties *)

(** ** Operators *)

Lemma gt_spec (a b : number) :
  gt a b = true <-> exists x y, a = Some x /\ b = Some y /\ x > y.
Proof.
  destruct a as [x|], b as [y|]; simpl.
  - rewrite Z.gtb_gt. split.
    + intros H. exists x, y. auto.
    + intros (x' & y' & [= <-] & [= <-] & H). exact H.
  - split; [discriminate | intros (? & ? & _ & [=] & _)].
  - split; [discriminate | intros (? & ? & [=] & _)].
  - split; [discriminate | intros (? & ? & [=] & _)].
Qed.

Lemma le_some (x c : Z) : le (Some x) (Some c) = (x <=? c).
Proof. reflexivity. Qed.

Lemma leb_agree_iff (a b c : Z) :
  eqb (a <=? c) (b <=? c) = true <->
  (a <= c /\ b <= c) \/ (a > c /\ b > c).
Proof.
  rewrite eqb_true_iff.
  destruct (Z.leb_spec a c), (Z.leb_spec b c); split; intros Hx; try lia;
    try discriminate; auto; right; lia.
Qed.

(** ** Double arithmetic on integers *)

(** Rounding is exact up to [2 ^ 53] and monotone; so are the sums and
    differences built on it. *)

Lemma exponent_nonneg (m : Z) : 0 <= exponent m.
Proof. unfold exponent. lia. Qed.

Lemma exponent_mono (x y : Z) : x <= y -> exponent x <= exponent y.
Proof.
  intros H. unfold exponent. pose proof (Z.log2_le_mono x y H). lia.
Qed.

Lemma below_binade (m : Z) : 0 <= m -> m < 2 ^ (exponent m + 53).
Proof.
  intros Hm. destruct (Z.eq_dec m 0) as [->|Hne].
  - apply Z.pow_pos_nonneg; [lia|]. pose proof (exponent_nonneg 0). lia.
  - pose proof (Z.log2_spec m ltac:(lia)) as [_ Hlt].
    eapply Z.lt_le_trans; [exact Hlt|].
    apply Z.pow_le_mono_r; [lia|]. unfold exponent. lia.
Qed.

Lemma above_binade (m : Z) : 1 <= exponent m -> 2 ^ (exponent m + 52) <= m.
Proof.
  intros He. unfold exponent in *.
  assert (0 < m) as Hm.
  { destruct (Z_lt_le_dec 0 m); [assumption|].
    rewrite Z.log2_nonpos in He by assumption. lia. }
  pose proof (Z.log2_spec m Hm) as [Hle _].
  replace (Z.max 0 (Z.log2 m - 52) + 52) with (Z.log2 m) by lia. exact Hle.
Qed.

Lemma nearest_multiple_bounds (u m : Z) :
  0 < u -> (m / u) * u <= nearest_multiple u m <= (m / u + 1) * u.
Proof.
  intros Hu. unfold nearest_multiple.
  destruct (2 * (m mod u) <? u); [nia|].
  destruct (u <? 2 * (m mod u)); [nia|].
  destruct (Z.even (m / u)); nia.
Qed.

Lemma nearest_multiple_mono (u x y : Z) :
  0 < u -> x <= y -> nearest_multiple u x <= nearest_multiple u y.
Proof.
  intros Hu Hxy.
  pose proof (Z.div_le_mono x y u Hu Hxy) as Hq.
  destruct (Z.eq_dec (x / u) (y / u)) as [Heq|Hne].
  - pose proof (Z.div_mod x u ltac:(lia)) as Hx.
    pose proof (Z.div_mod y u ltac:(lia)) as Hy.
    assert (x mod u <= y mod u) as Hr by (rewrite Heq in Hx; lia).
    unfold nearest_multiple. rewrite Heq.
    repeat match goal with
           | |- context [if ?b then _ else _] => destruct b eqn:?
           end;
      rewrite ?Z.ltb_lt, ?Z.ltb_ge in *; nia.
  - pose proof (nearest_multiple_bounds u x Hu).
    pose proof (nearest_multiple_bounds u y Hu). nia.
Qed.

Lemma pow2_pos (k : Z) : 0 <= k -> 0 < 2 ^ k.
Proof. intros. apply Z.pow_pos_nonneg; lia. Qed.

Lemma nearest_mono (x y : Z) : 0 <= x -> x <= y -> nearest x <= nearest y.
Proof.
  intros Hx Hxy. unfold nearest.
  pose proof (exponent_mono x y Hxy) as He.
  pose proof (exponent_nonneg x) as Hex.
  destruct (Z.eq_dec (exponent x) (exponent y)) as [Heq|Hne].
  - rewrite Heq. apply nearest_multiple_mono; [|exact Hxy].
    apply pow2_pos. rewrite <- Heq. exact Hex.
  - assert (exponent x + 1 <= exponent y) as Hlt by lia.
    pose proof (pow2_pos (exponent x) Hex) as Hux.
    pose proof (pow2_pos (exponent y) ltac:(lia)) as Huy.
    pose proof (nearest_multiple_bounds (2 ^ exponent x) x Hux) as [_ Hup].
    pose proof (nearest_multiple_bounds (2 ^ exponent y) y Huy) as [Hlo _].
    pose proof (below_binade x Hx) as Hbx.
    pose proof (above_binade y ltac:(lia)) as Hby.
    rewrite Z.pow_add_r in Hbx, Hby by lia.
    assert (x / 2 ^ exponent x < 2 ^ 53) as Hqx
      by (apply Z.div_lt_upper_bound; lia).
    assert (2 ^ 52 <= y / 2 ^ exponent y) as Hqy
      by (apply Z.div_le_lower_bound; lia).
    assert (2 ^ (exponent x + 1) <= 2 ^ exponent y) as Hpow
      by (apply Z.pow_le_mono_r; lia).
    rewrite Z.pow_add_r in Hpow by lia.
    change (2 ^ 1) with 2 in Hpow. change (2 ^ 53) with (2 * 2 ^ 52) in *.
    assert (0 < 2 ^ 52) by (apply pow2_pos; lia).
    set (ux := 2 ^ exponent x) in *. set (uy := 2 ^ exponent y) in *.
    set (p := 2 ^ 52) in *.
    transitivity (2 * p * ux); [nia|]. transitivity (p * uy); nia.
Qed.

Lemma nearest_small (m : Z) : 0 <= m <= 2 ^ 53 -> nearest m = m.
Proof.
  intros [Hm Hle]. destruct (Z.eq_dec m (2 ^ 53)) as [->|Hne];
    [reflexivity|].
  unfold nearest.
  assert (exponent m = 0) as ->.
  { unfold exponent. destruct (Z.eq_dec m 0) as [->|H0]; [reflexivity|].
    assert (Z.log2 m < 53) by (apply Z.log2_lt_pow2; lia). lia. }
  unfold nearest_multiple. change (2 ^ 0) with 1.
  rewrite Z.mod_1_r, Z.div_1_r. simpl. lia.
Qed.

Lemma nearest_nonneg (m : Z) : 0 <= m -> 0 <= nearest m.
Proof.
  intros Hm. unfold nearest.
  pose proof (pow2_pos (exponent m) (exponent_nonneg m)) as Hu.
  pose proof (nearest_multiple_bounds (2 ^ exponent m) m Hu) as [Hlo _].
  pose proof (Z.div_pos m (2 ^ exponent m) Hm Hu). nia.
Qed.

Lemma round_small (s : Z) : - 2 ^ 53 <= s <= 2 ^ 53 -> round s = DInt s.
Proof.
  intros Hs. unfold round. rewrite nearest_small by lia.
  assert ((max_double <? Z.abs s) = false) as ->.
  { apply Z.ltb_ge. transitivity (2 ^ 53); [lia|]. now vm_compute. }
  f_equal. lia.
Qed.

Lemma round_mono (x y : Z) : x <= y -> dle (round x) (round y) = true.
Proof.
  intros Hxy. unfold round.
  pose proof (nearest_nonneg (Z.abs x) (Z.abs_nonneg x)) as Hnx.
  pose proof (nearest_nonneg (Z.abs y) (Z.abs_nonneg y)) as Hny.
  assert (x < 0 -> y < 0 -> nearest (Z.abs y) <= nearest (Z.abs x)) as Hneg
    by (intros; apply nearest_mono; lia).
  assert (0 <= x -> nearest (Z.abs x) <= nearest (Z.abs y)) as Hpos
    by (intros; apply nearest_mono; lia).
  destruct (Z.ltb_spec x 0) as [Hx|Hx], (Z.ltb_spec y 0) as [Hy|Hy];
    destruct (Z.ltb_spec max_double (nearest (Z.abs x))),
             (Z.ltb_spec max_double (nearest (Z.abs y)));
    simpl; try reflexivity; try lia; apply Z.leb_le; nia.
Qed.

Lemma round_not_nan (s : Z) : round s <> DNaN.
Proof. unfold round. now destruct (max_double <? _). Qed.

Lemma dle_round_inf (s : Z) : dle (round s) (DInf false) = true.
Proof. unfold round. now destruct (max_double <? _), (s <? 0). Qed.

Lemma dle_inf_round (s : Z) : dle (DInf true) (round s) = true.
Proof. unfold round. now destruct (max_double <? _), (s <? 0). Qed.

Lemma add_mono_r (c : Z) (r1 r2 : double) :
  dle r1 r2 = true -> dle (add (DInt c) r1) (add (DInt c) r2) = true.
Proof.
  destruct r1 as [|[|]|x], r2 as [|[|]|y]; simpl; try discriminate;
    try reflexivity; intros H.
  - apply dle_inf_round.
  - apply dle_round_inf.
  - apply round_mono. apply Z.leb_le in H. lia.
Qed.

Lemma dgt_mono (a b l : double) :
  dle a b = true -> dgt a l = true -> dgt b l = true.
Proof.
  destruct a as [|[|]|x], b as [|[|]|y], l as [|[|]|z]; simpl;
    try discriminate; try reflexivity.
  intros H1 H2. apply Z.leb_le in H1. rewrite Z.gtb_ltb in *.
  apply Z.ltb_lt in H2. apply Z.ltb_lt. lia.
Qed.

Lemma sub_exact (x y : Z) :
  - 2 ^ 53 <= x - y <= 2 ^ 53 -> sub (DInt x) (DInt y) = DInt (x - y).
Proof.
  intros H. unfold sub, opp, add. rewrite Z.add_opp_r. now apply round_small.
Qed.

Lemma add_exact (x y : Z) :
  - 2 ^ 53 <= x + y <= 2 ^ 53 -> add (DInt x) (DInt y) = DInt (x + y).
Proof. intros H. unfold add. now apply round_small. Qed.

Lemma sub_mono_l (m a b : Z) :
  b <= a -> dle (sub (DInt m) (DInt a)) (sub (DInt m) (DInt b)) = true.
Proof. intros H. unfold sub, opp, add. apply round_mono. lia. Qed.

(** ** The eligibility rule in terms of [firstChild] *)

Lemma shouldWither_unfold (n : node) :
  _shouldWither n =
  match tree n with
  | None => VBool false
  | Some t =>
      if negb (truthy (lifeSpan t)) then VBool false
      else VBool (negb (first_child_young n) && too_old t (_lastUpdateGen n))
  end.
Proof.
  destruct n as [[t|] g vs]; [|reflexivity].
  destruct vs as [|[| |g' sw|c] vs]; reflexivity.
Qed.

Lemma shouldWither_bool (n : node) : exists b, _shouldWither n = VBool b.
Proof.
  rewrite shouldWither_unfold.
  destruct (tree n) as [t|]; [|eauto].
  destruct (negb (truthy (lifeSpan t))); eauto.
Qed.

(** The age test on numbers the doubles hold exactly. *)
Lemma too_old_exact (t : Tree) (stamp : value) (g l : Z) :
  to_number stamp = Some g ->
  to_number (lifeSpan t) = Some l ->
  exact_range t g ->
  too_old t stamp = (age (_currGen t) (MAX_GENERATION t) g >? l).
Proof.
  intros Hg Hl (Hc & Hr & Hm). unfold too_old, age. rewrite Hg, Hl.
  cbn -[sub add Z.pow]. destruct (Z.geb_spec (_currGen t) g).
  - rewrite sub_exact by lia. reflexivity.
  - rewrite sub_exact, add_exact by lia. reflexivity.
Qed.

Lemma too_old_age (t : Tree) (g l : Z) :
  lifeSpan t = VNum l ->
  exact_range t g ->
  too_old t (VNum g) = (age (_currGen t) (MAX_GENERATION t) g >? l).
Proof.
  intros Hl. apply too_old_exact; [reflexivity|now rewrite Hl].
Qed.

(** A stamp of the current generation has age 0, whatever the range. *)
Lemma too_old_current (t : Tree) (l : Z) :
  lifeSpan t = VNum l -> too_old t (VNum (_currGen t)) = (0 >? l).
Proof.
  intros Hl. unfold too_old. rewrite Hl. cbn -[sub add Z.pow].
  rewrite (proj2 (Z.geb_le (_currGen t) (_currGen t))) by lia.
  rewrite sub_exact by lia. now rewrite Z.sub_diag.
Qed.

(** The age test is monotone along the comparator's order: rounding keeps
    the order of the ages. *)
Lemma too_old_mono (t : Tree) (g own : value) (a b : Z) :
  to_number g = Some a -> to_number own = Some b ->
  a > b ->
  (a <= _currGen t /\ b <= _currGen t) \/
  (a > _currGen t /\ b > _currGen t) ->
  too_old t g = true -> too_old t own = true.
Proof.
  intros Ha Hb Hab Hs. unfold too_old. rewrite Ha, Hb.
  cbn -[sub add Z.pow].
  destruct (Z.geb_spec (_currGen t) a), (Z.geb_spec (_currGen t) b);
    try lia.
  - apply dgt_mono, sub_mono_l. lia.
  - apply dgt_mono, add_mono_r, sub_mono_l. lia.
Qed.

(** ** C1: the age comparator *)

(** When the comparator answers [true]: the tree tracks generations, and
    the stamps are numbers, the other above the own, on one side of the
    current generation. *)
Lemma genOlderThan_true (n : node) (g : value) :
  _genOlderThan n g = VBool true <->
  exists t a b,
    tree n = Some t /\ truthy (lifeSpan t) = true /\
    to_number g = Some a /\ to_number (_lastUpdateGen n) = Some b /\
    a > b /\
    ((a <= _currGen t /\ b <= _currGen t) \/
     (a > _currGen t /\ b > _currGen t)).
Proof.
  unfold _genOlderThan.
  destruct (tree n) as [t|] eqn:Ht.
  - destruct (truthy (lifeSpan t)) eqn:Hl; simpl.
    + destruct (gt (to_number g) (to_number (_lastUpdateGen n))) eqn:Hgt;
        simpl.
      * apply gt_spec in Hgt as (a & b & Ha & Hb & Hab).
        rewrite Ha, Hb, !le_some. split.
        -- intros [= Heq]. apply leb_agree_iff in Heq.
           exists t, a, b. auto 8.
        -- intros (t' & a' & b' & [= <-] & _ & [= <-] & [= <-] & _ & Hs).
           f_equal. now apply leb_agree_iff.
      * split; [discriminate|].
        intros (t' & a & b & _ & _ & Ha & Hb & Hab & _).
        assert (gt (to_number g) (to_number (_lastUpdateGen n)) = true)
          by (apply gt_spec; eauto).
        congruence.
    + split.
      * intros Heq. rewrite Heq in Hl. discriminate.
      * intros (t' & a & b & [= <-] & Hl' & _). congruence.
  - split; [discriminate|]. intros (t' & a & b & [=] & _).
Qed.

(** The comparator's answer is truthy only when it is [true]. *)
Lemma genOlderThan_truthy (n : node) (g : value) :
  truthy (_genOlderThan n g) = true <-> _genOlderThan n g = VBool true.
Proof.
  split; [|now intros ->].
  unfold _genOlderThan. destruct (tree n) as [t|]; [|discriminate].
  destruct (truthy (lifeSpan t)) eqn:Hl; simpl; [|congruence].
  destruct (gt _ _); simpl; [|discriminate].
  destruct (eqb _ _); [reflexivity|discriminate].
Qed.

(** C1.  [_genOlderThan (generationToComp)] returns [true] exactly when
    generation tracking is active, [generationToComp] is numerically
    greater than the node's own stamp, and the two stamps are on the same
    side of the tree's current generation.  With [MAX_GENERATION = 100],
    current generation 5, own stamp 98 and other stamp 3 the stamps are on
    opposite sides of the current generation, and the comparator returns
    [false] when tracking is active (and the falsy [lifeSpan] otherwise). *)
Theorem genOlderThan_true_iff :
  (forall (n : node) (generationToComp : value),
     _genOlderThan n generationToComp = VBool true <->
     tracking_active n /\
     numerically_greater generationToComp (_lastUpdateGen n) /\
     (forall t, tree n = Some t ->
        same_side (_currGen t) generationToComp (_lastUpdateGen n))) /\
  (forall (life : value) (links : bool) (vs : list slot),
     _genOlderThan (Node (Some (mkTree 5 life links 100)) (VNum 98) vs) (VNum 3)
       = (if truthy life then VBool false else life) /\
     ~ same_side 5 (VNum 3) (VNum 98)).
Proof.
  split.
  - intros n g. rewrite genOlderThan_true.
    unfold tracking_active, numerically_greater, same_side. split.
    + intros (t & a & b & Ht & Hl & Ha & Hb & Hab & Hs).
      split; [eauto|]. split; [eauto 6|].
      intros t' Ht'. assert (t' = t) as -> by congruence. eauto 8.
    + intros ((t & Ht & Hl) & (a & b & Ha & Hb & Hab) & Hside).
      destruct (Hside t Ht) as (a' & b' & Ha' & Hb' & Hs).
      assert (a' = a) as -> by congruence.
      assert (b' = b) as -> by congruence.
      exists t, a, b. auto 8.
  - intros life links vs. split.
    + unfold _genOlderThan. simpl. destruct (truthy life); reflexivity.
    + intros (a & b & [= <-] & [= <-] & Hs). lia.
Qed.

(** ** C2: the age test *)

(** C2.  With generation tracking active and no first-child protection,
    [_shouldWither] is the test [age > lifeSpan] (strict), where the age is
    [currentGeneration - lastUpdateGeneration] when
    [currentGeneration >= lastUpdateGeneration] and
    [currentGeneration + (MAX_GENERATION - lastUpdateGeneration)]
    otherwise.  Clock and stamp are generation numbers, in
    [[0, MAX_GENERATION)], and [MAX_GENERATION] is at most [2 ^ 53], so
    that the doubles of the program hold these integers exactly.  A node
    whose stamp is unset has no age ([NaN]) and is not too old. *)
Theorem shouldWither_age_rule (n : node) (t : Tree) :
  tree n = Some t ->
  truthy (lifeSpan t) = true ->
  first_child_young n = false ->
  (forall g l : Z,
     to_number (_lastUpdateGen n) = Some g ->
     to_number (lifeSpan t) = Some l ->
     exact_range t g ->
     _shouldWither n = VBool (age (_currGen t) (MAX_GENERATION t) g >? l)) /\
  (_lastUpdateGen n = VUndef -> _shouldWither n = VBool false).
Proof.
  intros Ht Hl Hy. rewrite shouldWither_unfold, Ht, Hl, Hy. simpl.
  split.
  - intros g l Hg Hlife Hr. f_equal. now apply too_old_exact.
  - intros ->. reflexivity.
Qed.

(** The spec's cases: [lifeSpan = 10], [currentGeneration = 20]: a stamp of
    9 has age 11 and is eligible, a stamp of 10 has age 10 and is not;
    [MAX_GENERATION = 100], [currentGeneration = 2], stamp 95: age 7, not
    eligible. *)
Lemma shouldWither_age_rule_cases :
  (age 20 100 9 = 11 /\
   _shouldWither (Node (Some (mkTree 20 (VNum 10) false 100)) (VNum 9) [])
     = VBool true) /\
  (age 20 100 10 = 10 /\
   _shouldWither (Node (Some (mkTree 20 (VNum 10) false 100)) (VNum 10) [])
     = VBool false) /\
  (age 2 100 95 = 7 /\
   _shouldWither (Node (Some (mkTree 2 (VNum 10) false 100)) (VNum 95) [])
     = VBool false).
Proof.
  split; [|split]; (split; [reflexivity|]).
  - refine (proj1 (shouldWither_age_rule
              (Node (Some (mkTree 20 (VNum 10) false 100)) (VNum 9) [])
              (mkTree 20 (VNum 10) false 100) eq_refl eq_refl eq_refl)
              9 10 eq_refl eq_refl _).
    unfold exact_range. cbn. lia.
  - refine (proj1 (shouldWither_age_rule
              (Node (Some (mkTree 20 (VNum 10) false 100)) (VNum 10) [])
              (mkTree 20 (VNum 10) false 100) eq_refl eq_refl eq_refl)
              10 10 eq_refl eq_refl _).
    unfold exact_range. cbn. lia.
  - refine (proj1 (shouldWither_age_rule
              (Node (Some (mkTree 2 (VNum 10) false 100)) (VNum 95) [])
              (mkTree 2 (VNum 10) false 100) eq_refl eq_refl eq_refl)
              95 10 eq_refl eq_refl _).
    unfold exact_range. cbn. lia.
Defined.

(** Beyond [2 ^ 53] the program's age is a rounded one: at generation 1
    with [MAX_GENERATION = 2 ^ 53 + 2], a stamp of 2 has the exact age
    [2 ^ 53 + 1], the double sum is [2 ^ 53], and with [lifeSpan = 2 ^ 53]
    the node is not eligible. *)
Example shouldWither_rounds :
  age 1 (2 ^ 53 + 2) 2 = 2 ^ 53 + 1 /\
  _shouldWither
    (Node (Some (mkTree 1 (VNum (2 ^ 53)) false (2 ^ 53 + 2))) (VNum 2) [])
    = VBool false.
Proof. split; reflexivity. Qed.

(** ** C3: the protection clause *)

(** C3.  With generation tracking active: a first child whose own
    [_shouldWither] is exactly [false] makes the node not eligible whatever
    its age; when the first child is absent (no slot, [null] or [false]) or
    its [_shouldWither] is anything but [false] (eligible, or no such
    property), the age test alone decides. *)
Theorem shouldWither_protection (n : node) (t : Tree) :
  tree n = Some t ->
  truthy (lifeSpan t) = true ->
  (slot_truthy (firstChild n) = true ->
   slot_shouldWither (firstChild n) = VBool false ->
   _shouldWither n = VBool false) /\
  (slot_truthy (firstChild n) = false ->
   _shouldWither n = VBool (too_old t (_lastUpdateGen n))) /\
  (slot_shouldWither (firstChild n) <> VBool false ->
   _shouldWither n = VBool (too_old t (_lastUpdateGen n))).
Proof.
  intros Ht Hl. rewrite shouldWither_unfold, Ht, Hl. simpl.
  unfold first_child_young. repeat split.
  - intros -> ->. reflexivity.
  - intros ->. reflexivity.
  - intros Hne.
    destruct (slot_shouldWither (firstChild n)) as [|[|]|z];
      try congruence; now rewrite andb_false_r.
Qed.

(** A parent of age 15 under [lifeSpan = 10]: with a first child of age 1
    (whose [_shouldWither] is [false]) it does not wither; with no first
    child, with a first child that is itself eligible, and with a first
    child that has no [_shouldWither], it does. *)
Lemma shouldWither_protection_cases :
  _shouldWither (Node (Some Ex.plain) (VNum 5) [SChild (Ex.leaf Ex.plain 19)])
    = VBool false /\
  _shouldWither (Node (Some Ex.plain) (VNum 5) []) = VBool true /\
  _shouldWither (Node (Some Ex.plain) (VNum 5) [SChild (Ex.leaf Ex.plain 5)])
    = VBool true /\
  _shouldWither (Node (Some Ex.plain) (VNum 5) [SObj VUndef VUndef])
    = VBool true.
Proof.
  split; [|split; [|split]].
  - exact (proj1 (shouldWither_protection
             (Node (Some Ex.plain) (VNum 5) [SChild (Ex.leaf Ex.plain 19)])
             Ex.plain eq_refl eq_refl) eq_refl eq_refl).
  - exact (proj1 (proj2 (shouldWither_protection
             (Node (Some Ex.plain) (VNum 5) [])
             Ex.plain eq_refl eq_refl)) eq_refl).
  - refine (proj2 (proj2 (shouldWither_protection
             (Node (Some Ex.plain) (VNum 5) [SChild (Ex.leaf Ex.plain 5)])
             Ex.plain eq_refl eq_refl)) _).
    discriminate.
  - refine (proj2 (proj2 (shouldWither_protection
             (Node (Some Ex.plain) (VNum 5) [SObj VUndef VUndef])
             Ex.plain eq_refl eq_refl)) _).
    discriminate.
Defined.

(** ** The sweep, for any host *)

Section Sweep.
Context {B : Base}.

Lemma skew_repair_frame (this : node) :
  tree (skew_repair this) = tree this /\
  values (skew_repair this) = values this.
Proof.
  unfold skew_repair.
  assert (forall l n, tree (fold_left repair_step l n) = tree n /\
                      values (fold_left repair_step l n) = values n) as H.
  { induction l as [|s l IH]; intros n; [easy|].
    simpl. destruct (IH (repair_step n s)) as [-> ->].
    unfold repair_step.
    destruct (_ && _); [destruct n|]; easy. }
  apply H.
Qed.

(** With the tree's [lifeSpan] absent or zero the comparator is falsy and
    the skew repair changes nothing. *)
Lemma genOlderThan_untracked (this : node) (g : value) :
  tracking this = false -> truthy (_genOlderThan this g) = false.
Proof.
  unfold tracking, _genOlderThan. destruct (tree this) as [t|]; [|easy].
  intros H. rewrite H. exact H.
Qed.

Lemma skew_repair_untracked (this : node) :
  tracking this = false -> skew_repair this = this.
Proof.
  intros Hoff. unfold skew_repair. generalize (values this) as l.
  induction l as [|s l IH]; [easy|]. simpl.
  unfold repair_step at 2. rewrite genOlderThan_untracked by easy.
  now rewrite andb_false_r.
Qed.

Lemma shouldWither_untracked (this : node) :
  tracking this = false -> _shouldWither this = VBool false.
Proof.
  unfold tracking. rewrite shouldWither_unfold.
  destruct (tree this) as [t|]; [|easy]. now intros ->.
Qed.

Lemma wither_throw (fuel : nat) (this : node) :
  tree this = None -> wither (S fuel) this = Some Throw.
Proof. simpl. now intros ->. Qed.

Lemma wither_evict (fuel : nat) (this : node) :
  has_tree this = true ->
  truthy (_shouldWither (repaired this)) = true ->
  wither (S fuel) this = Some (Return (clear (repaired this) SNull, true)).
Proof.
  unfold has_tree, repaired. simpl. destruct (tree this) as [t|]; [|easy].
  now intros _ ->.
Qed.

Lemma wither_sweep (fuel : nat) (this : node) :
  has_tree this = true ->
  truthy (_shouldWither (repaired this)) = false ->
  wither (S fuel) this = sweep fuel (repaired this) 0.
Proof.
  unfold has_tree, repaired. simpl. destruct (tree this) as [t|]; [|easy].
  now intros _ ->.
Qed.

(** The four ways a round of the loop goes. *)
Lemma sweep_exit (fuel : nat) (this : node) (index : nat) :
  (childNum this <= index)%nat ->
  sweep (S fuel) this index = Some (Return (this, collapsed this)).
Proof.
  intros Hi. simpl. now apply Nat.ltb_ge in Hi as ->.
Qed.

Lemma sweep_skip (fuel : nat) (this : node) (index : nat) :
  (index < childNum this)%nat ->
  witherable (values this !! index) = false ->
  sweep (S fuel) this index = sweep fuel this (S index).
Proof.
  intros Hi Hw. simpl. apply Nat.ltb_lt in Hi as ->.
  destruct (values this !! index) as [[| | |c]|]; easy.
Qed.

Lemma sweep_detach (fuel : nat) (this : node) (index : nat)
    (child child' : node) :
  values this !! index = Some (SChild child) ->
  wither fuel child = Some (Return (child', true)) ->
  sweep (S fuel) this index =
    sweep fuel (remove (put_child this index child') index true SNull) index.
Proof.
  intros Hc Hw. simpl. rewrite Hc, Hw.
  apply lookup_lt_Some, Nat.ltb_lt in Hc. unfold childNum. now rewrite Hc.
Qed.

Lemma sweep_keep (fuel : nat) (this : node) (index : nat)
    (child child' : node) :
  values this !! index = Some (SChild child) ->
  wither fuel child = Some (Return (child', false)) ->
  sweep (S fuel) this index =
    sweep fuel (put_child this index child') (S index).
Proof.
  intros Hc Hw. simpl. rewrite Hc, Hw.
  apply lookup_lt_Some, Nat.ltb_lt in Hc. unfold childNum. now rewrite Hc.
Qed.

(** More fuel does not change a result. *)
Lemma fuel_mono (fuel : nat) :
  (forall this o, wither fuel this = Some o ->
     forall fuel', (fuel <= fuel')%nat -> wither fuel' this = Some o) /\
  (forall this index o, sweep fuel this index = Some o ->
     forall fuel', (fuel <= fuel')%nat -> sweep fuel' this index = Some o).
Proof.
  induction fuel as [|fuel [IHw IHs]]; [split; intros; discriminate|].
  split.
  - intros this o Hw [|fuel'] Hle; [lia|].
    simpl in Hw |- *. destruct (tree this) as [t|]; [|easy].
    destruct (truthy _); [easy|]. apply (IHs _ _ _ Hw). lia.
  - intros this index o Hs [|fuel'] Hle; [lia|].
    assert (fuel <= fuel')%nat as Hle' by lia.
    simpl in Hs |- *. destruct (index <? childNum this)%nat; [|easy].
    destruct (values this !! index) as [[| | |c]|]; eauto.
    destruct (wither fuel c) as [[[c' w]|]|] eqn:Hc; [| |easy].
    + rewrite (IHw _ _ Hc fuel' Hle'). destruct w; eauto.
    + now rewrite (IHw _ _ Hc fuel' Hle').
Qed.

Lemma wither_mono (fuel fuel' : nat) (this : node) o :
  wither fuel this = Some o -> (fuel <= fuel')%nat ->
  wither fuel' this = Some o.
Proof. intros H Hle. exact (proj1 (fuel_mono fuel) this o H fuel' Hle). Qed.

Lemma sweep_mono (fuel fuel' : nat) (this : node) (index : nat) o :
  sweep fuel this index = Some o -> (fuel <= fuel')%nat ->
  sweep fuel' this index = Some o.
Proof. intros H Hle. exact (proj2 (fuel_mono fuel) this index o H fuel' Hle). Qed.

(** The loop returns the collapse signal of the node it leaves. *)
Lemma sweep_returns_collapsed (fuel : nat) :
  forall this index this' r,
    sweep fuel this index = Some (Return (this', r)) -> r = collapsed this'.
Proof.
  induction fuel as [|fuel IH]; intros this index this' r; [easy|].
  simpl. destruct (index <? childNum this)%nat.
  - destruct (values this !! index) as [[| | |c]|]; eauto.
    destruct (wither fuel c) as [[[c' w]|]|]; [|easy..].
    destruct w; eauto.
  - now intros [= <- <-].
Qed.

End Sweep.

(** ** The sweep on the host modelled from the spec *)

Lemma budget_unfold (n : node) :
  budget n = S (S (slots_budget (values n))).
Proof.
  destruct n as [tr g vs]. reflexivity.
Qed.

Lemma all_nodes_unfold (P : node -> bool) (n : node) :
  all_nodes P n = P n && all_slots P (values n).
Proof.
  destruct n as [tr g vs]. simpl. f_equal.
  induction vs as [|[| | |c] vs IH]; simpl; congruence.
Qed.

Lemma prune_unfold (n : node) :
  prune n = set_values n (prune_slots (values n)).
Proof.
  destruct n as [tr g vs]. reflexivity.
Qed.

Lemma set_values_twice (n : node) (l l' : list slot) :
  set_values (set_values n l) l' = set_values n l'.
Proof. now destruct n. Qed.

Lemma set_values_same (n : node) : set_values n (values n) = n.
Proof. now destruct n. Qed.

Lemma values_set_values (n : node) (l : list slot) :
  values (set_values n l) = l.
Proof. now destruct n. Qed.

Lemma tree_set_values (n : node) (l : list slot) :
  tree (set_values n l) = tree n.
Proof. now destruct n. Qed.

Lemma stamp_set_values (n : node) (l : list slot) :
  _lastUpdateGen (set_values n l) = _lastUpdateGen n.
Proof. now destruct n. Qed.

(** Slots of the node after a child survived and stayed in place. *)
Lemma keep_slots (vs : list slot) (index : nat) (s x : slot) :
  vs !! index = Some s ->
  take (S index) (<[index := x]> vs) = take index vs ++ [x] /\
  drop (S index) (<[index := x]> vs) = drop (S index) vs.
Proof.
  intros Hs. pose proof (lookup_lt_Some _ _ _ Hs) as Hi. split.
  - erewrite take_S_r by (apply list_lookup_insert_eq; exact Hi).
    rewrite take_insert_ge by lia. easy.
  - rewrite drop_insert_lt by lia. easy.
Qed.

Section SpecHost.
Variable t0 : Tree.
Local Abbreviation wither0 := (wither (B := SpecBase t0)).
Local Abbreviation sweep0 := (sweep (B := SpecBase t0)).

Lemma remove_spec_values (this : node) (index : nat) (x : node) :
  (index < childNum this)%nat ->
  values (remove_spec (put_child this index x) index true SNull)
    = take index (values this) ++ drop (S index) (values this).
Proof.
  intros Hi. unfold remove_spec, put_child.
  rewrite !values_set_values, delete_take_drop.
  rewrite take_insert_ge, drop_insert_lt by lia. reflexivity.
Qed.

(** What the loop leaves: the slots before [index] as they are, and the
    slots from [index] on swept in index order.  The tree and the stamp of
    the node are not touched. *)
Lemma sweep_swept (fuel : nat) :
  forall this index this' r,
    (index <= childNum this)%nat ->
    sweep0 fuel this index = Some (Return (this', r)) ->
    exists l',
      swept (withers (B := SpecBase t0)) (drop index (values this)) l' /\
      this' = set_values this (take index (values this) ++ l').
Proof.
  induction fuel as [|fuel IH]; intros this index this' r Hle; [easy|].
  destruct (Nat.ltb_spec index (childNum this)) as [Hi|Hi].
  - destruct (lookup_lt_is_Some_2 (values this) index Hi) as [s Hs].
    pose proof (drop_S _ _ _ Hs) as Hdrop.
    destruct (witherable (Some s)) eqn:Hw.
    + destruct s as [| | |c]; try discriminate.
      simpl. apply Nat.ltb_lt in Hi as Hi'. rewrite Hi', Hs.
      destruct (wither fuel c) as [[[c' w]|]|] eqn:Hc; [|easy..].
      destruct w; intros Hsw.
      * pose proof (remove_spec_values this index c' Hi) as Hv.
        assert (length (take index (values this)) = index) as Hlen
          by (apply length_take_le; unfold childNum in Hi; lia).
        apply IH in Hsw as (l' & Hl' & ->).
        2:{ unfold childNum in *.
            rewrite Hv, length_app, Hlen, length_drop. lia. }
        rewrite Hv in *.
        rewrite take_app_le, take_ge by lia.
        rewrite drop_app_ge, Hlen, Nat.sub_diag in Hl' by lia.
        simpl in Hl'. exists l'. split.
        -- rewrite Hdrop. eapply swept_detached; [exists fuel; exact Hc|].
           exact Hl'.
        -- unfold remove_spec, put_child.
           now rewrite !set_values_twice.
      * apply IH in Hsw as (l' & Hl' & ->).
        2:{ unfold childNum in *. unfold put_child.
            rewrite values_set_values, length_insert. lia. }
        unfold put_child in *. rewrite values_set_values in *.
        destruct (keep_slots _ _ _ (SChild c') Hs) as [Htake Hdrop'].
        rewrite Htake, Hdrop' in *.
        exists (SChild c' :: l'). split.
        -- rewrite Hdrop. eapply swept_kept; [exists fuel; exact Hc|].
           exact Hl'.
        -- now rewrite set_values_twice, <- app_assoc.
    + rewrite sweep_skip by (rewrite ?Hs; easy).
      intros Hsw. apply IH in Hsw as (l' & Hl' & ->); [|lia].
      exists (s :: l'). split.
      * rewrite Hdrop. now apply swept_untouched.
      * rewrite (take_S_r _ _ _ Hs), <- app_assoc. reflexivity.
  - rewrite sweep_exit by exact Hi. intros [= <- <-].
    exists []. split.
    + rewrite drop_ge by (unfold childNum in Hi; lia). constructor.
    + rewrite take_ge by (unfold childNum in Hi; lia).
      now rewrite app_nil_r, set_values_same.
Qed.

(** Slots from [index] on, after the child in slot [index] was detached. *)
Lemma detached_drop (this : node) (index : nat) (x : node) :
  (index < childNum this)%nat ->
  take index (values (remove_spec (put_child this index x) index true SNull))
    = take index (values this) /\
  drop index (values (remove_spec (put_child this index x) index true SNull))
    = drop (S index) (values this).
Proof.
  intros Hi. rewrite remove_spec_values by exact Hi.
  assert (length (take index (values this)) = index) as Hlen
    by (apply length_take_le; unfold childNum in Hi; lia).
  split.
  - rewrite take_app_le, take_ge by lia. reflexivity.
  - rewrite drop_app_ge, Hlen, Nat.sub_diag by lia. reflexivity.
Qed.

Lemma kept_drop (this : node) (index : nat) (s : slot) (x : node) :
  values this !! index = Some s ->
  take (S index) (values (put_child this index x))
    = take index (values this) ++ [SChild x] /\
  drop (S index) (values (put_child this index x))
    = drop (S index) (values this).
Proof.
  intros Hs. unfold put_child. rewrite values_set_values.
  exact (keep_slots _ _ _ _ Hs).
Qed.

(** With [budget] units of fuel the call does not run out, and it
    returns when every node below has its tree. *)
Lemma budget_enough (fuel : nat) :
  (forall this,
     (budget this <= fuel)%nat ->
     exists o, wither0 fuel this = Some o /\
       (all_nodes has_tree this = true -> exists this' r, o = Return (this', r))) /\
  (forall this index,
     (S (slots_budget (drop index (values this))) <= fuel)%nat ->
     exists o, sweep0 fuel this index = Some o /\
       (all_slots has_tree (drop index (values this)) = true ->
        exists this' r, o = Return (this', r))).
Proof.
  induction fuel as [|fuel [IHw IHs]].
  { split; intros *; [rewrite budget_unfold|]; lia. }
  split.
  - intros this Hb. rewrite budget_unfold in Hb.
    rewrite all_nodes_unfold. unfold has_tree at 1.
    destruct (tree this) as [t|] eqn:Ht.
    + destruct (truthy (_shouldWither (repaired this))) eqn:He.
      * rewrite wither_evict by (unfold has_tree; rewrite ?Ht; easy).
        eauto.
      * rewrite wither_sweep by (unfold has_tree; rewrite ?Ht; easy).
        assert (values (repaired this) = values this) as Hv.
        { unfold repaired. rewrite Ht. destruct (neighboringLinks t);
            [apply skew_repair_frame|reflexivity]. }
        destruct (IHs (repaired this) 0%nat) as (o & Ho & Hret).
        { rewrite Hv, drop_0. lia. }
        rewrite Hv, drop_0 in Hret. exists o. split; [exact Ho|].
        intros Hall. now apply Hret.
    + rewrite wither_throw by exact Ht. exists Throw. split; easy.
  - intros this index Hb.
    destruct (Nat.ltb_spec index (childNum this)) as [Hi|Hi].
    + destruct (lookup_lt_is_Some_2 (values this) index Hi) as [s Hs].
      rewrite (drop_S _ _ _ Hs) in *.
      destruct (witherable (Some s)) eqn:Hw.
      * destruct s as [| | |c]; try discriminate. simpl in Hb.
        destruct (IHw c) as (o & Ho & Hret); [lia|].
        destruct o as [[c' w]|].
        -- destruct w.
           ++ rewrite (sweep_detach _ _ _ _ _ Hs Ho).
              destruct (detached_drop this index c' Hi) as [_ Hd].
              destruct (IHs (remove_spec (put_child this index c') index true SNull)
                          index) as (o & Ho' & Hret').
              { simpl. rewrite Hd. lia. }
              simpl in Hret'. rewrite Hd in Hret'.
              exists o. split; [exact Ho'|].
              simpl. intros [_ Hall]%andb_true_iff. now apply Hret'.
           ++ rewrite (sweep_keep _ _ _ _ _ Hs Ho).
              destruct (kept_drop this index _ c' Hs) as [_ Hd].
              destruct (IHs (put_child this index c') (S index))
                as (o & Ho' & Hret').
              { rewrite Hd. lia. }
              rewrite Hd in Hret'.
              exists o. split; [exact Ho'|].
              simpl. intros [_ Hall]%andb_true_iff. now apply Hret'.
        -- exists Throw. split.
           ++ simpl. apply Nat.ltb_lt in Hi as ->. now rewrite Hs, Ho.
           ++ simpl. intros [Hall _]%andb_true_iff.
              destruct (Hret Hall) as (? & ? & [=]).
      * rewrite sweep_skip by (rewrite ?Hs; easy).
        destruct (IHs this (S index)) as (o & Ho' & Hret').
        { destruct s; try discriminate; simpl in Hb; lia. }
        exists o. split; [exact Ho'|].
        intros Hall. apply Hret'.
        destruct s; try discriminate; exact Hall.
    + rewrite sweep_exit by exact Hi. eauto.
Qed.

Lemma untracked_tracking (this : node) :
  untracked this = true -> has_tree this = true /\ tracking this = false.
Proof.
  unfold untracked, has_tree, tracking.
  destruct (tree this) as [t|]; [|easy].
  now intros ->%negb_true_iff.
Qed.

Lemma repaired_untracked (this : node) :
  tracking this = false -> repaired this = this.
Proof.
  intros Hoff. unfold repaired. destruct (tree this) as [t|]; [|easy].
  destruct (neighboringLinks t); [|easy].
  now apply skew_repair_untracked.
Qed.

(** In a subtree whose nodes all belong to a tree with [lifeSpan] absent or
    zero, [wither] is structural pruning. *)
Lemma untracked_prune (fuel : nat) :
  (forall this,
     (budget this <= fuel)%nat ->
     all_nodes untracked this = true ->
     wither0 fuel this = Some (Return (prune this, collapsed (prune this)))) /\
  (forall this index,
     (index <= childNum this)%nat ->
     (S (slots_budget (drop index (values this))) <= fuel)%nat ->
     all_slots untracked (drop index (values this)) = true ->
     let this' :=
       set_values this
         (take index (values this) ++ prune_slots (drop index (values this)))
     in sweep0 fuel this index = Some (Return (this', collapsed this'))).
Proof.
  induction fuel as [|fuel [IHw IHs]].
  { split; intros *; [rewrite budget_unfold|]; lia. }
  cbv zeta in *. split.
  - intros this Hb. rewrite budget_unfold in Hb.
    rewrite all_nodes_unfold.
    intros [[Htree Hoff]%untracked_tracking Hall]%andb_true_iff.
    rewrite wither_sweep; rewrite ?repaired_untracked by exact Hoff;
      [|exact Htree|now rewrite shouldWither_untracked].
    rewrite IHs; rewrite ?drop_0; [|unfold childNum; lia|lia|exact Hall].
    now rewrite take_0, prune_unfold.
  - intros this index Hle Hb Hall.
    destruct (Nat.ltb_spec index (childNum this)) as [Hi|Hi].
    + destruct (lookup_lt_is_Some_2 (values this) index Hi) as [s Hs].
      rewrite (drop_S _ _ _ Hs) in *.
      destruct (witherable (Some s)) eqn:Hw.
      * destruct s as [| | |c]; try discriminate. simpl in Hb, Hall.
        apply andb_true_iff in Hall as [Hc Hall].
        pose proof (IHw c ltac:(lia) Hc) as Hwc.
        change (prune_slots (SChild c :: ?r))
          with (if collapsed (prune c) then prune_slots r
                else SChild (prune c) :: prune_slots r).
        destruct (collapsed (prune c)) eqn:Hcol.
        -- rewrite (sweep_detach _ _ _ _ _ Hs Hwc).
           destruct (detached_drop this index (prune c) Hi) as [Ht Hd].
           rewrite IHs; simpl; rewrite ?Hd, ?Ht; [| |lia|exact Hall].
           ++ unfold remove_spec, put_child.
              now rewrite !set_values_twice.
           ++ unfold childNum in *.
              rewrite remove_spec_values, length_app, length_drop by exact Hi.
              rewrite length_take_le by lia. lia.
        -- rewrite (sweep_keep _ _ _ _ _ Hs Hwc).
           destruct (kept_drop this index _ (prune c) Hs) as [Ht Hd].
           rewrite IHs; rewrite ?Hd, ?Ht; [| |lia|exact Hall].
           ++ unfold put_child.
              now rewrite !set_values_twice, <- app_assoc.
           ++ unfold childNum, put_child in *.
              rewrite values_set_values, length_insert. lia.
      * rewrite sweep_skip by (rewrite ?Hs; easy).
        assert (prune_slots (s :: drop (S index) (values this))
                = s :: prune_slots (drop (S index) (values this))) as ->
          by (destruct s; try discriminate; reflexivity).
        rewrite IHs.
        -- now rewrite (take_S_r _ _ _ Hs), <- app_assoc.
        -- lia.
        -- destruct s; try discriminate; simpl in Hb; lia.
        -- destruct s; try discriminate; exact Hall.
    + rewrite sweep_exit by exact Hi. unfold childNum in *.
      rewrite drop_ge, take_ge by lia. simpl.
      now rewrite app_nil_r, set_values_same.
Qed.

End SpecHost.

(** ** C4: when [wither] returns [true] *)

Section WitherResult.
Context {B : Base}.

(** What a returning call did: it cleared the node as the self-eviction
    check saw it, with no fuel spent on children, or it swept the children
    and returned the collapse signal of the node it left. *)
Lemma wither_result (fuel : nat) (this this' : node) (r : bool) :
  wither fuel this = Some (Return (this', r)) ->
  has_tree this = true /\
  (truthy (_shouldWither (repaired this)) = true ->
   this' = clear (repaired this) SNull /\ r = true /\
   wither 1 this = Some (Return (this', r))) /\
  (truthy (_shouldWither (repaired this)) = false ->
   sweep (pred fuel) (repaired this) 0 = Some (Return (this', r)) /\
   r = collapsed this').
Proof.
  destruct fuel as [|fuel]; [easy|].
  destruct (has_tree this) eqn:Ht.
  - destruct (truthy (_shouldWither (repaired this))) eqn:He.
    + rewrite !wither_evict by easy. intros [= <- <-]. easy.
    + rewrite wither_sweep by easy. intros Hs.
      split; [easy|]. split; [easy|].
      intros _. split; [exact Hs|].
      exact (sweep_returns_collapsed _ _ _ _ _ Hs).
  - unfold has_tree in Ht. destruct (tree this) eqn:Htree; [easy|].
    now rewrite wither_throw.
Qed.

End WitherResult.

(** Against C4 as written, where the skew repair rejuvenates the node:
    on entry the node of age 15 is eligible (its first slot is [null], so
    nothing protects it), the repair adopts the stamp 18 of its second
    child, and [wither] sweeps the children and returns [false]. *)
Lemma wither_entry_counterexample :
  _shouldWither (Ex.stale_parent Ex.linked) = VBool true /\
  wither (B := SpecBase Ex.linked) 7 (Ex.stale_parent Ex.linked)
    = Some (Return (Node (Some Ex.linked) (VNum 18)
                      [SNull; SChild (Ex.leaf Ex.linked 18)], false)).
Proof. split; reflexivity. Qed.

(** C4 (amended).  A call of [wither] that returns, returns [true] in
    exactly two cases: (a) the eligibility rule holds of the node once the
    skew repair has run (of the node as it was on entry when the tree has
    no neighbouring links); the node is then cleared with [clear (null)]
    and no child is visited (one unit of fuel suffices); or (b) the rule
    does not hold and the node the child sweep leaves has at most one slot,
    holding [null].  With the host modelled from the spec the call returns
    for every node whose subtree has its tree references. *)
Theorem wither_true_iff :
  (forall (B : Base) (fuel : nat) (this this' : node) (r : bool),
     wither fuel this = Some (Return (this', r)) ->
     (r = true <->
      truthy (_shouldWither (repaired this)) = true \/
      (truthy (_shouldWither (repaired this)) = false /\
       collapsed this' = true)) /\
     (truthy (_shouldWither (repaired this)) = true ->
      this' = clear (repaired this) SNull /\
      wither 1 this = Some (Return (this', true))) /\
     (forall t, tree this = Some t -> neighboringLinks t = false ->
      repaired this = this)) /\
  (forall (t0 : Tree) (this : node),
     all_nodes has_tree this = true ->
     exists this' r,
       forall fuel, (budget this <= fuel)%nat ->
         wither (B := SpecBase t0) fuel this = Some (Return (this', r))).
Proof.
  split.
  - intros B fuel this this' r Hw.
    destruct (wither_result _ _ _ _ Hw) as (Ht & Hevict & Hsweep).
    split; [split|split].
    + intros ->. destruct (truthy (_shouldWither (repaired this))); [auto|].
      right. split; [easy|]. symmetry. now apply Hsweep.
    + intros [He|[He Hc]].
      * now apply Hevict.
      * rewrite <- Hc. now apply Hsweep.
    + intros He. destruct (Hevict He) as (-> & -> & H'). easy.
    + intros t Htree Hoff. unfold repaired. now rewrite Htree, Hoff.
  - intros t0 this Hall.
    destruct (proj1 (budget_enough t0 (budget this)) this (Nat.le_refl _))
      as (o & Ho & Hret).
    destruct (Hret Hall) as (this' & r & ->).
    exists this', r. intros fuel Hle.
    exact (wither_mono _ _ _ _ Ho Hle).
Qed.

(** A node of age 15 with no children withers: the eligibility rule holds,
    it is cleared and [true] is returned with one unit of fuel; the leaf of
    age 2 is swept and [wither] returns. *)
Lemma wither_true_iff_cases :
  (truthy (_shouldWither (repaired (Node (Some Ex.plain) (VNum 5) [])))
     = true \/
   (truthy (_shouldWither (repaired (Node (Some Ex.plain) (VNum 5) [])))
      = false /\
    collapsed (Node (Some Ex.plain) (VNum 5) [SNull]) = true)) /\
  wither (B := SpecBase Ex.plain) 1 (Node (Some Ex.plain) (VNum 5) [])
    = Some (Return (Node (Some Ex.plain) (VNum 5) [SNull], true)) /\
  (exists this' r,
     wither (B := SpecBase Ex.plain) (budget (Ex.leaf Ex.plain 18))
       (Ex.leaf Ex.plain 18) = Some (Return (this', r))).
Proof.
  pose proof (proj1 wither_true_iff (SpecBase Ex.plain) 1%nat
                (Node (Some Ex.plain) (VNum 5) [])
                (Node (Some Ex.plain) (VNum 5) [SNull]) true eq_refl)
    as (Hiff & Hevict & _).
  split; [|split].
  - exact (proj1 Hiff eq_refl).
  - exact (proj2 (Hevict eq_refl)).
  - destruct (proj2 wither_true_iff Ex.plain (Ex.leaf Ex.plain 18) eq_refl)
      as (this' & r & H).
    exists this', r. exact (H _ (Nat.le_refl _)).
Defined.

(** ** C5: the child sweep *)

Lemma repaired_frame (this : node) :
  tree (repaired this) = tree this /\
  values (repaired this) = values this.
Proof.
  unfold repaired. destruct (tree this) as [t|] eqn:Ht; [|easy].
  destruct (neighboringLinks t); [|easy].
  rewrite <- Ht. apply skew_repair_frame.
Qed.

(** What [wither] leaves of a node that does not evict itself, on the host
    modelled from the spec: the call returns, and the node is left with its
    slots swept in index order. *)
Lemma wither_swept (t0 : Tree) (this : node) :
  all_nodes has_tree this = true ->
  truthy (_shouldWither (repaired this)) = false ->
  exists l',
    swept (withers (B := SpecBase t0)) (values this) l' /\
    forall fuel, (budget this <= fuel)%nat ->
      wither (B := SpecBase t0) fuel this
        = Some (Return (set_values (repaired this) l',
                        collapsed (set_values (repaired this) l'))).
Proof.
  intros Hall He.
  destruct (proj1 (budget_enough t0 (budget this)) this (Nat.le_refl _))
    as (o & Ho & Hret).
  destruct (Hret Hall) as (this' & r & ->).
  destruct (wither_result _ _ _ _ Ho) as (_ & _ & Hsweep).
  destruct (Hsweep He) as [Hs ->].
  apply sweep_swept in Hs as (l' & Hl' & ->); [|lia].
  rewrite drop_0, take_0 in *.
  rewrite (proj2 (repaired_frame this)) in Hl'.
  exists l'. split; [exact Hl'|].
  intros fuel Hle. exact (wither_mono _ _ _ _ Ho Hle).
Qed.

(** Three children, of which the first two wither and the third does not:
    the third is left alone in slot 0, and no collapse is reported. *)
Lemma wither_three (t0 : Tree) (this c0 c1 c2 c0' c1' c2' : node) :
  has_tree this = true ->
  truthy (_shouldWither (repaired this)) = false ->
  values this = [SChild c0; SChild c1; SChild c2] ->
  withers (B := SpecBase t0) c0 c0' true ->
  withers (B := SpecBase t0) c1 c1' true ->
  withers (B := SpecBase t0) c2 c2' false ->
  exists fuel, forall fuel', (fuel <= fuel')%nat ->
    wither (B := SpecBase t0) fuel' this
      = Some (Return (set_values (repaired this) [SChild c2'], false)).
Proof.
  intros Ht He Hv [f0 H0] [f1 H1] [f2 H2].
  exists (5 + (f0 + f1 + f2))%nat. intros fuel' Hle.
  destruct fuel' as [|[|[|[|[|k]]]]]; try lia.
  rewrite wither_sweep by easy.
  pose proof (proj2 (repaired_frame this)) as Hv'. rewrite Hv in Hv'.
  destruct (repaired this) as [tr g vs]. simpl in Hv'. subst vs.
  erewrite sweep_detach;
    [|reflexivity|exact (wither_mono _ (S (S (S k))) _ _ H0 ltac:(lia))].
  erewrite sweep_detach;
    [|reflexivity|exact (wither_mono _ (S (S k)) _ _ H1 ltac:(lia))].
  erewrite sweep_keep;
    [|reflexivity|exact (wither_mono _ (S k) _ _ H2 ltac:(lia))].
  reflexivity.
Qed.

(** C5.  The loop of [wither] goes through the slots in index order.  In
    a round on slot [index] (any host): an occupant without [wither], or an
    empty slot, is passed over with the node as it is; a child whose
    [wither ()] returns [true] is handed to [remove (child, true, null)]
    and the loop goes on at the same [index]; a child whose [wither ()]
    returns [false] stays and the loop goes on at [index + 1].  On the
    host modelled from the spec, where [remove] shifts the later children
    left, [wither] on a node that does not evict itself returns and leaves
    the node with its slots swept in order; with three children of which
    the first two wither and the third survives, the survivor is alone, in
    slot 0, and [false] is returned. *)
Theorem sweep_in_index_order :
  (forall (B : Base) (fuel : nat) (this : node) (index : nat),
     (index < childNum this)%nat ->
     (witherable (values this !! index) = false ->
      sweep (S fuel) this index = sweep fuel this (S index)) /\
     (forall child child',
        values this !! index = Some (SChild child) ->
        (wither fuel child = Some (Return (child', true)) ->
         sweep (S fuel) this index =
           sweep fuel (remove (put_child this index child') index true SNull)
             index) /\
        (wither fuel child = Some (Return (child', false)) ->
         sweep (S fuel) this index =
           sweep fuel (put_child this index child') (S index)))) /\
  (forall (t0 : Tree) (this : node),
     all_nodes has_tree this = true ->
     truthy (_shouldWither (repaired this)) = false ->
     exists l',
       swept (withers (B := SpecBase t0)) (values this) l' /\
       forall fuel, (budget this <= fuel)%nat ->
         wither (B := SpecBase t0) fuel this
           = Some (Return (set_values (repaired this) l',
                           collapsed (set_values (repaired this) l')))) /\
  (forall (t0 : Tree) (this c0 c1 c2 c0' c1' c2' : node),
     has_tree this = true ->
     truthy (_shouldWither (repaired this)) = false ->
     values this = [SChild c0; SChild c1; SChild c2] ->
     withers (B := SpecBase t0) c0 c0' true ->
     withers (B := SpecBase t0) c1 c1' true ->
     withers (B := SpecBase t0) c2 c2' false ->
     exists fuel, forall fuel', (fuel <= fuel')%nat ->
       wither (B := SpecBase t0) fuel' this
         = Some (Return (set_values (repaired this) [SChild c2'], false))).
Proof.
  split; [|split].
  - intros B fuel this index Hi. split.
    + now apply sweep_skip.
    + intros child child' Hc. split.
      * now apply sweep_detach.
      * now apply sweep_keep.
  - exact wither_swept.
  - exact wither_three.
Qed.

(** The node [Ex.three]: the leaves stamped 5 and 6 wither, the leaf
    stamped 18 is left in slot 0. *)
Lemma sweep_in_index_order_three :
  exists fuel,
    wither (B := SpecBase Ex.plain) fuel (Ex.three Ex.plain)
      = Some (Return (Node (Some Ex.plain) (VNum 19)
                        [SChild (Ex.leaf Ex.plain 18)], false)).
Proof.
  assert (exists fuel, forall fuel', (fuel <= fuel')%nat ->
    wither (B := SpecBase Ex.plain) fuel' (Ex.three Ex.plain)
      = Some (Return (Node (Some Ex.plain) (VNum 19)
                        [SChild (Ex.leaf Ex.plain 18)], false)))
    as [fuel H]; [|exists fuel; exact (H _ (Nat.le_refl _))].
  apply (proj2 (proj2 sweep_in_index_order) Ex.plain (Ex.three Ex.plain)
           (Ex.leaf Ex.plain 5) (Ex.leaf Ex.plain 6) (Ex.leaf Ex.plain 18)
           (clear_spec (Ex.leaf Ex.plain 5) SNull)
           (clear_spec (Ex.leaf Ex.plain 6) SNull)
           (Ex.leaf Ex.plain 18)).
  - reflexivity.
  - reflexivity.
  - reflexivity.
  - exists 1%nat. reflexivity.
  - exists 1%nat. reflexivity.
  - exists 3%nat. reflexivity.
Defined.

(** ** C6: a tree without [lifeSpan] *)

Section Disabled.
Context {B : Base}.

Lemma rejuvenate_untracked (this : node) :
  tracking this = false -> rejuvenate this = this.
Proof.
  unfold tracking, rejuvenate. destruct (tree this) as [t|]; [|easy].
  now intros ->.
Qed.

Lemma constructor_untracked (props : option Props) :
  tracking (super_constructor props) = false ->
  constructor props =
    Return match props with
           | Some p =>
               if truthy (p_currGen p)
               then set_lastUpdateGen (super_constructor props) (p_currGen p)
               else super_constructor props
           | None => super_constructor props
           end.
Proof.
  intros Hoff. unfold constructor. rewrite Hoff, orb_false_r.
  destruct props as [p|]; [|reflexivity].
  destruct (truthy (p_currGen p)); reflexivity.
Qed.

Lemma mergeAfter_untracked (this : node) (nd : option node) :
  tracking (fst (super_mergeAfter this nd)) = false ->
  mergeAfter this nd = super_mergeAfter this nd.
Proof.
  unfold mergeAfter. destruct (super_mergeAfter this nd) as [this1 result].
  simpl. intros Hoff. rewrite genOlderThan_untracked by exact Hoff.
  now destruct (res_truthy result).
Qed.

Lemma traverse_untracked (this : node) (args : Args) (props : option Props) :
  tracking (fst (call_super super_traverse this args props)) = false ->
  traverse this args props = call_super super_traverse this args props.
Proof.
  unfold traverse. destruct (call_super _ _ _ _) as [this1 result].
  simpl. intros Hoff. rewrite rejuvenate_untracked by exact Hoff.
  now destruct (may_rejuvenate props).
Qed.

Lemma getUncachedRange_untracked (this : node) (args : Args)
    (props : option Props) :
  tracking (fst (call_super super_getUncachedRange this args props)) = false ->
  getUncachedRange this args props
    = call_super super_getUncachedRange this args props.
Proof.
  unfold getUncachedRange. destruct (call_super _ _ _ _) as [this1 result].
  simpl. intros Hoff. rewrite rejuvenate_untracked by exact Hoff.
  now destruct (may_rejuvenate props).
Qed.

Lemma wither_untracked (fuel : nat) (this : node) :
  untracked this = true -> wither (S fuel) this = sweep fuel this 0.
Proof.
  intros [Ht Hoff]%untracked_tracking.
  rewrite wither_sweep; rewrite ?repaired_untracked by exact Hoff;
    [reflexivity|exact Ht|now rewrite shouldWither_untracked].
Qed.

End Disabled.

(** Against C6 as written, at construction: on a tree with no
    [lifeSpan] the host's constructor leaves the stamp unset, and the
    mixin's constructor, given [props._currGen = 7], sets it to 7. *)
Lemma constructor_seeds_counterexample :
  lifeSpan Ex.off = VUndef /\
  _lastUpdateGen
    (super_constructor (Base := SpecBase Ex.off)
       (Some (mkProps (VNum 7) VUndef))) = VUndef /\
  constructor (B := SpecBase Ex.off) (Some (mkProps (VNum 7) VUndef))
    = Return (Node (Some Ex.off) (VNum 7) [SNull]).
Proof. repeat split. Qed.

(** C6 (amended).  On a tree whose [lifeSpan] is absent or zero, for any
    host: the constructor leaves the stamp as the host's constructor made
    it unless [props] has a truthy [_currGen], which it stores as the
    stamp; [mergeAfter], [traverse] and [getUncachedRange] are the host's
    operation and nothing more; [rejuvenate] changes nothing; [wither]
    goes straight to the child sweep, with the node as it was on entry: no
    stamp adopted, nothing cleared.  On the host modelled from the spec,
    [wither] on a subtree of such nodes is structural pruning: it returns,
    a child is dropped exactly when it is left with at most one slot
    holding [null], no stamp enters the result's shape or the returned
    value, and the node keeps its stamp. *)
Theorem disabled_is_structural :
  (forall (B : Base),
     (forall props,
        tracking (super_constructor props) = false ->
        constructor props =
          Return match props with
                 | Some p =>
                     if truthy (p_currGen p)
                     then set_lastUpdateGen (super_constructor props)
                            (p_currGen p)
                     else super_constructor props
                 | None => super_constructor props
                 end) /\
     (forall this nd,
        tracking (fst (super_mergeAfter this nd)) = false ->
        mergeAfter this nd = super_mergeAfter this nd) /\
     (forall this, tracking this = false -> rejuvenate this = this) /\
     (forall this args props,
        tracking (fst (call_super super_traverse this args props)) = false ->
        traverse this args props
          = call_super super_traverse this args props) /\
     (forall this args props,
        tracking (fst (call_super super_getUncachedRange this args props))
          = false ->
        getUncachedRange this args props
          = call_super super_getUncachedRange this args props) /\
     (forall fuel this,
        untracked this = true ->
        wither (S fuel) this = sweep fuel this 0)) /\
  (forall (t0 : Tree) (this : node),
     all_nodes untracked this = true ->
     _lastUpdateGen (prune this) = _lastUpdateGen this /\
     forall fuel, (budget this <= fuel)%nat ->
       wither (B := SpecBase t0) fuel this
         = Some (Return (prune this, collapsed (prune this)))).
Proof.
  split.
  - intros B. repeat split.
    + exact constructor_untracked.
    + exact mergeAfter_untracked.
    + exact rejuvenate_untracked.
    + exact traverse_untracked.
    + exact getUncachedRange_untracked.
    + exact wither_untracked.
  - intros t0 this Hall. split.
    + rewrite prune_unfold. apply stamp_set_values.
    + intros fuel Hle.
      exact (proj1 (untracked_prune t0 fuel) this Hle Hall).
Qed.

(** With no [lifeSpan] the node [Ex.three], whose first two leaves have
    ages 15 and 14, is left as it is by [wither]. *)
Lemma disabled_is_structural_three :
  wither (B := SpecBase Ex.off) (budget (Ex.three Ex.off)) (Ex.three Ex.off)
    = Some (Return (Ex.three Ex.off, false)).
Proof.
  exact (proj2 (proj2 disabled_is_structural Ex.off (Ex.three Ex.off)
                  eq_refl) _ (Nat.le_refl _)).
Defined.

(** ** C7: stamps do not move backward *)

Lemma age_younger (c m a b : Z) :
  a > b ->
  (a <= c /\ b <= c) \/ (a > c /\ b > c) ->
  age c m a < age c m b.
Proof.
  intros Hab Hside. unfold age.
  destruct (Z.geb_spec c a), (Z.geb_spec c b); lia.
Qed.

Lemma age_current (c m : Z) : age c m c = 0.
Proof. unfold age. rewrite (proj2 (Z.geb_le c c)) by lia. lia. Qed.

Lemma age_positive (c m a : Z) :
  0 <= c < m -> 0 <= a < m -> a <> c -> 0 < age c m a.
Proof.
  intros Hc Ha Hne. unfold age. destruct (Z.geb_spec c a); lia.
Qed.

Lemma not_backward_refl (t : Tree) (g : value) : not_backward t g g.
Proof. now left. Qed.

Lemma not_backward_trans (t : Tree) (x y z : value) :
  not_backward t x y -> not_backward t y z -> not_backward t x z.
Proof.
  intros [->|(b1 & Hb1 & H1)] [->|(b2 & Hb2 & H2)].
  - now left.
  - right. eauto.
  - right. eauto.
  - right. exists b2. split; [exact Hb2|].
    intros a Ha. specialize (H1 a Ha). specialize (H2 b1 Hb1). lia.
Qed.

(** A stamp the comparator prefers is younger than the node's own. *)
Lemma adopted_forward (t : Tree) (this : node) (g : value) :
  tree this = Some t ->
  truthy (_genOlderThan this g) = true ->
  not_backward t (_lastUpdateGen this) g.
Proof.
  intros Ht Hold. apply genOlderThan_truthy, genOlderThan_true in Hold
    as (t' & a & b & Ht' & _ & Ha & Hb & Hab & Hs).
  assert (t' = t) as -> by congruence.
  right. exists a. split; [exact Ha|].
  intros b' Hb'. assert (b' = b) as -> by congruence.
  now apply age_younger.
Qed.

Lemma tree_set_lastUpdateGen (n : node) (g : value) :
  tree (set_lastUpdateGen n g) = tree n.
Proof. now destruct n. Qed.

Lemma stamp_set_lastUpdateGen (n : node) (g : value) :
  _lastUpdateGen (set_lastUpdateGen n g) = g.
Proof. now destruct n. Qed.

Lemma repair_step_forward (t : Tree) (this : node) (s : slot) :
  tree this = Some t ->
  tree (repair_step this s) = Some t /\
  not_backward t (_lastUpdateGen this) (_lastUpdateGen (repair_step this s)).
Proof.
  intros Ht. unfold repair_step.
  destruct (slot_truthy (Some s) && is_number (slot_lastUpdateGen s)); simpl;
    [|split; [easy|apply not_backward_refl]].
  destruct (truthy (_genOlderThan this (slot_lastUpdateGen s))) eqn:Hold;
    [|split; [easy|apply not_backward_refl]].
  rewrite tree_set_lastUpdateGen, stamp_set_lastUpdateGen.
  split; [exact Ht|]. now apply adopted_forward.
Qed.

Lemma skew_repair_forward (t : Tree) (this : node) :
  tree this = Some t ->
  not_backward t (_lastUpdateGen this) (_lastUpdateGen (skew_repair this)).
Proof.
  unfold skew_repair. generalize (values this) as l. intros l. revert this.
  induction l as [|s l IH]; intros this Ht; [apply not_backward_refl|].
  simpl. destruct (repair_step_forward t this s Ht) as [Ht' Hstep].
  eapply not_backward_trans; [exact Hstep|]. now apply IH.
Qed.

Lemma repaired_forward (t : Tree) (this : node) :
  tree this = Some t ->
  not_backward t (_lastUpdateGen this) (_lastUpdateGen (repaired this)).
Proof.
  intros Ht. unfold repaired. rewrite Ht.
  destruct (neighboringLinks t); [|apply not_backward_refl].
  now apply skew_repair_forward.
Qed.

Lemma rejuvenate_forward (t : Tree) (this : node) :
  tree this = Some t ->
  in_range t (_lastUpdateGen this) ->
  not_backward t (_lastUpdateGen this) (_lastUpdateGen (rejuvenate this)).
Proof.
  intros Ht [Hc Hg]. unfold rejuvenate. rewrite Ht.
  destruct (truthy (lifeSpan t)); [|apply not_backward_refl].
  rewrite stamp_set_lastUpdateGen.
  destruct Hg as [->|(z & -> & Hz)].
  - right. exists (_currGen t). split; [reflexivity|]. discriminate.
  - destruct (Z.eq_dec z (_currGen t)) as [->|Hne]; [now left|].
    right. exists (_currGen t). split; [reflexivity|].
    intros a [= <-]. rewrite age_current. now apply age_positive.
Qed.

Lemma rejuvenate_idempotent (this : node) :
  rejuvenate (rejuvenate this) = rejuvenate this.
Proof.
  unfold rejuvenate. destruct (tree this) as [t|] eqn:Ht; rewrite ?Ht; [|easy].
  destruct (truthy (lifeSpan t)) eqn:Hl; rewrite ?Ht, ?Hl; [|easy].
  rewrite tree_set_lastUpdateGen, Ht, Hl. now destruct this.
Qed.

Lemma genOlderThan_ext (n1 n2 : node) (g : value) :
  tree n1 = tree n2 -> _lastUpdateGen n1 = _lastUpdateGen n2 ->
  _genOlderThan n1 g = _genOlderThan n2 g.
Proof. unfold _genOlderThan. now intros -> ->. Qed.

(** A node is never older than its own stamp: the comparison is strict. *)
Lemma genOlderThan_own (n : node) (g : value) :
  g = _lastUpdateGen n -> truthy (_genOlderThan n g) = false.
Proof.
  intros ->. unfold _genOlderThan. destruct (tree n) as [t|]; [|easy].
  destruct (truthy (lifeSpan t)) eqn:Hl; simpl; [|exact Hl].
  assert (gt (to_number (_lastUpdateGen n)) (to_number (_lastUpdateGen n))
          = false) as ->; [|reflexivity].
  destruct (to_number (_lastUpdateGen n)) as [z|]; simpl; [|reflexivity].
  rewrite Z.gtb_ltb. apply Z.ltb_irrefl.
Qed.

Section Stamps.
Context {B : Base}.

(** The stamp [mergeAfter] leaves, when the host's part leaves the stamp
    and the tree reference alone. *)
Lemma mergeAfter_stamp (this : node) (nd : option node) :
  merge_keeps_stamp this nd ->
  _lastUpdateGen (fst (mergeAfter this nd)) =
    if res_truthy (snd (super_mergeAfter this nd))
       && truthy (_genOlderThan this (nodeGen this nd))
    then nodeGen this nd
    else _lastUpdateGen this.
Proof.
  unfold merge_keeps_stamp, mergeAfter.
  destruct (super_mergeAfter this nd) as [this1 result]. simpl.
  intros [Ht Hg]. rewrite (genOlderThan_ext this1 this _ Ht Hg).
  destruct (res_truthy result); simpl; [|exact Hg].
  destruct (truthy (_genOlderThan this (nodeGen this nd))); simpl;
    [apply stamp_set_lastUpdateGen|exact Hg].
Qed.

Lemma mergeAfter_forward (t : Tree) (this : node) (nd : option node) :
  tree this = Some t ->
  merge_keeps_stamp this nd ->
  not_backward t (_lastUpdateGen this)
    (_lastUpdateGen (fst (mergeAfter this nd))).
Proof.
  intros Ht Hkeep. rewrite mergeAfter_stamp by exact Hkeep.
  destruct (res_truthy _); simpl; [|apply not_backward_refl].
  destruct (truthy (_genOlderThan this (nodeGen this nd))) eqn:Hold;
    [|apply not_backward_refl].
  now apply adopted_forward.
Qed.

Lemma constructor_forward (t : Tree) (props : option Props) (this' : node) :
  _lastUpdateGen (super_constructor props) = VUndef ->
  constructor props = Return this' ->
  not_backward t (_lastUpdateGen (super_constructor props))
    (_lastUpdateGen this').
Proof.
  intros Hunset. unfold constructor.
  destruct (_ || _); [|intros [= <-]; apply not_backward_refl].
  destruct props as [p|]; [|discriminate].
  destruct (truthy (p_currGen p)) eqn:Hp.
  - intros [= <-]. rewrite stamp_set_lastUpdateGen, Hunset.
    right. destruct (p_currGen p) as [|b|z]; try discriminate;
      eexists; (split; [reflexivity|discriminate]).
  - destruct (tree (super_constructor (Some p))) as [t'|]; [|discriminate].
    intros [= <-]. rewrite stamp_set_lastUpdateGen, Hunset.
    right. eexists; (split; [reflexivity|discriminate]).
Qed.

End Stamps.

(** C7.  For a node of tree [t] and any host: [rejuvenate] leaves the
    stamp or moves it forward to the current generation (the stamp and the
    clock being in range), and a second [rejuvenate] changes nothing; the
    skew repair of [wither] leaves the stamp or moves it forward;
    [mergeAfter] does, when the host's merge leaves the stamp alone; and
    the constructor only sets a stamp the host's constructor left unset.
    Forward means: to a number of smaller age. *)
Theorem stamp_never_backward (B : Base) (t : Tree) (this : node) :
  tree this = Some t ->
  (in_range t (_lastUpdateGen this) ->
   not_backward t (_lastUpdateGen this) (_lastUpdateGen (rejuvenate this))) /\
  rejuvenate (rejuvenate this) = rejuvenate this /\
  not_backward t (_lastUpdateGen this) (_lastUpdateGen (repaired this)) /\
  (forall nd,
     merge_keeps_stamp this nd ->
     not_backward t (_lastUpdateGen this)
       (_lastUpdateGen (fst (mergeAfter this nd)))) /\
  (forall props this',
     _lastUpdateGen (super_constructor props) = VUndef ->
     constructor props = Return this' ->
     not_backward t (_lastUpdateGen (super_constructor props))
       (_lastUpdateGen this')).
Proof.
  intros Ht. split; [|split; [|split; [|split]]].
  - now apply rejuvenate_forward.
  - apply rejuvenate_idempotent.
  - now apply repaired_forward.
  - intros nd. now apply mergeAfter_forward.
  - intros props this'. apply constructor_forward.
Qed.

(** The leaf stamped 5 at generation 20: rejuvenated, repaired, merged with
    a leaf stamped 18, its stamp is the same or younger; a node built with
    the current generation gets its first stamp. *)
Lemma stamp_never_backward_cases :
  not_backward Ex.plain (VNum 5)
    (_lastUpdateGen (rejuvenate (Ex.leaf Ex.plain 5))) /\
  not_backward Ex.plain (VNum 5)
    (_lastUpdateGen
       (fst (mergeAfter (B := SpecBase Ex.plain) (Ex.leaf Ex.plain 5)
               (Some (Ex.leaf Ex.plain 18))))) /\
  not_backward Ex.plain VUndef (VNum 20).
Proof.
  pose proof (stamp_never_backward (SpecBase Ex.plain) Ex.plain
                (Ex.leaf Ex.plain 5) eq_refl) as (Hr & _ & _ & Hm & Hc).
  split; [|split].
  - apply Hr. split; [cbn; lia|].
    right. exists 5. split; [reflexivity|cbn; lia].
  - apply Hm. split; reflexivity.
  - exact (Hc (Some (mkProps VUndef VUndef))
              (Node (Some Ex.plain) (VNum 20) [SNull]) eq_refl eq_refl).
Defined.

(** ** C8 and C10: the merge hook *)

Section Merge.
Context {B : Base}.

(** With a stamp that is not negative, asking the comparator about
    [nodeGen] is asking it about the incoming stamp: a falsy incoming
    stamp is [undefined] or not above the own stamp. *)
Lemma nodeGen_older (this incoming : node) :
  (forall z, to_number (_lastUpdateGen this) = Some z -> 0 <= z) ->
  (if truthy (_genOlderThan this (nodeGen this (Some incoming)))
   then nodeGen this (Some incoming) else _lastUpdateGen this) =
  (if truthy (_genOlderThan this (_lastUpdateGen incoming))
   then _lastUpdateGen incoming else _lastUpdateGen this).
Proof.
  intros Hpos. unfold nodeGen.
  destruct (truthy (_lastUpdateGen incoming)) eqn:Hin; [reflexivity|].
  rewrite genOlderThan_own by reflexivity.
  destruct (truthy (_genOlderThan this (_lastUpdateGen incoming))) eqn:Hold;
    [|reflexivity].
  apply genOlderThan_truthy, genOlderThan_true in Hold
    as (t & a & b & _ & _ & Ha & Hb & Hab & _).
  specialize (Hpos b Hb).
  destruct (_lastUpdateGen incoming) as [|[|]|z]; try discriminate;
    simpl in Ha, Hin; injection Ha as <-; [lia|].
  apply negb_false_iff, Z.eqb_eq in Hin. lia.
Qed.

End Merge.

(** Against C8 as written, across the wrap: at generation 5 of 100, with
    tracking active, a node stamped 3 (age 2) is merged into a node stamped
    98 (age 7); the merge succeeds and the receiver keeps 98, the less
    recent of the two stamps. *)
Lemma mergeAfter_more_recent_counterexample :
  res_truthy (Base := SpecBase (mkTree 5 (VNum 10) false 100))
    (snd (mergeAfter (B := SpecBase (mkTree 5 (VNum 10) false 100))
            (Ex.leaf (mkTree 5 (VNum 10) false 100) 98)
            (Some (Ex.leaf (mkTree 5 (VNum 10) false 100) 3)))) = true /\
  _lastUpdateGen
    (fst (mergeAfter (B := SpecBase (mkTree 5 (VNum 10) false 100))
            (Ex.leaf (mkTree 5 (VNum 10) false 100) 98)
            (Some (Ex.leaf (mkTree 5 (VNum 10) false 100) 3)))) = VNum 98 /\
  age 5 100 3 = 2 /\ age 5 100 98 = 7.
Proof. repeat split. Qed.

(** C8 (amended).  After a [mergeAfter] whose host part succeeded (and
    left the receiver's stamp alone), the receiver's stamp is the incoming
    node's stamp if the comparator says the receiver is older than it, and
    the stamp it had otherwise.  With generation tracking active that is
    the stamp of smaller age, the more recent one, when the two stamps are
    on the same side of the current generation, and the receiver's own
    stamp when they are on opposite sides.  Stamps are generation numbers,
    not negative. *)
Theorem mergeAfter_adopts_more_recent (B : Base) (this incoming : node) :
  merge_keeps_stamp this (Some incoming) ->
  res_truthy (snd (super_mergeAfter this (Some incoming))) = true ->
  (forall z, to_number (_lastUpdateGen this) = Some z -> 0 <= z) ->
  _lastUpdateGen (fst (mergeAfter this (Some incoming))) =
    (if truthy (_genOlderThan this (_lastUpdateGen incoming))
     then _lastUpdateGen incoming else _lastUpdateGen this) /\
  (forall t a b,
     tree this = Some t -> truthy (lifeSpan t) = true ->
     to_number (_lastUpdateGen incoming) = Some a ->
     to_number (_lastUpdateGen this) = Some b ->
     ((a <= _currGen t /\ b <= _currGen t) \/
      (a > _currGen t /\ b > _currGen t) ->
      exists c,
        to_number (_lastUpdateGen (fst (mergeAfter this (Some incoming))))
          = Some c /\
        age (_currGen t) (MAX_GENERATION t) c =
          Z.min (age (_currGen t) (MAX_GENERATION t) a)
                (age (_currGen t) (MAX_GENERATION t) b)) /\
     (a <= _currGen t < b \/ b <= _currGen t < a ->
      _lastUpdateGen (fst (mergeAfter this (Some incoming)))
        = _lastUpdateGen this)).
Proof.
  intros Hkeep Hres Hpos.
  assert (_lastUpdateGen (fst (mergeAfter this (Some incoming))) =
          (if truthy (_genOlderThan this (_lastUpdateGen incoming))
           then _lastUpdateGen incoming else _lastUpdateGen this)) as Heq.
  { rewrite mergeAfter_stamp by exact Hkeep. rewrite Hres. simpl.
    now apply nodeGen_older. }
  split; [exact Heq|].
  intros t a b Ht Hl Ha Hb. rewrite Heq.
  destruct (truthy (_genOlderThan this (_lastUpdateGen incoming))) eqn:Hold.
  - apply genOlderThan_truthy, genOlderThan_true in Hold
      as (t' & a' & b' & Ht' & _ & Ha' & Hb' & Hab & Hs).
    assert (t' = t) as -> by congruence.
    assert (a' = a) as -> by congruence.
    assert (b' = b) as -> by congruence.
    split; [|lia].
    intros _. exists a. split; [exact Ha|].
    pose proof (age_younger (_currGen t) (MAX_GENERATION t) a b Hab Hs).
    lia.
  - split; [|reflexivity].
    intros Hside. exists b. split; [exact Hb|].
    destruct (Z_gt_le_dec a b) as [Hab|Hab].
    + assert (_genOlderThan this (_lastUpdateGen incoming) = VBool true)
        as Htrue by (apply genOlderThan_true; exists t, a, b; auto 8).
      rewrite Htrue in Hold. discriminate.
    + unfold age.
      destruct (Z.geb_spec (_currGen t) a), (Z.geb_spec (_currGen t) b); lia.
Qed.

(** The spec's case: at generation 10, merging a node stamped 5 into a
    node stamped 3 leaves the stamp 5. *)
Lemma mergeAfter_adopts_more_recent_case :
  _lastUpdateGen
    (fst (mergeAfter (B := SpecBase Ex.ten) (Ex.leaf Ex.ten 3)
            (Some (Ex.leaf Ex.ten 5)))) = VNum 5.
Proof.
  refine (proj1 (mergeAfter_adopts_more_recent (SpecBase Ex.ten)
                   (Ex.leaf Ex.ten 3) (Ex.leaf Ex.ten 5) _ eq_refl _)).
  - split; reflexivity.
  - intros z [= <-]. lia.
Defined.

(** C10.  When the incoming node is absent, or its stamp is falsy (unset,
    or 0), [nodeGen] is the receiver's own stamp; the comparator, being
    strict, does not prefer a stamp to itself; and the receiver's stamp
    is the one the host's merge left, which is the one it had. *)
Theorem mergeAfter_falsy_incoming (B : Base) (this : node)
    (nd : option node) :
  _lastUpdateGen (fst (super_mergeAfter this nd)) = _lastUpdateGen this ->
  match nd with
  | None => True
  | Some incoming =>
      _lastUpdateGen incoming = VUndef \/ _lastUpdateGen incoming = VNum 0
  end ->
  nodeGen this nd = _lastUpdateGen this /\
  truthy (_genOlderThan this (_lastUpdateGen this)) = false /\
  _lastUpdateGen (fst (mergeAfter this nd)) = _lastUpdateGen this.
Proof.
  intros Hkeep Hnd.
  assert (nodeGen this nd = _lastUpdateGen this) as Hgen.
  { unfold nodeGen. destruct nd as [incoming|]; [|reflexivity].
    destruct Hnd as [-> | ->]; reflexivity. }
  split; [exact Hgen|]. split; [now apply genOlderThan_own|].
  unfold mergeAfter. rewrite Hgen.
  destruct (super_mergeAfter this nd) as [this1 result]. simpl in *.
  rewrite genOlderThan_own by (symmetry; exact Hkeep).
  now destruct (res_truthy result).
Qed.

(** Merging a node stamped 0, a node with no stamp, and nothing, into a
    leaf stamped 3 at generation 10: the stamp stays 3. *)
Lemma mergeAfter_falsy_incoming_cases :
  _lastUpdateGen
    (fst (mergeAfter (B := SpecBase Ex.ten) (Ex.leaf Ex.ten 3)
            (Some (Ex.leaf Ex.ten 0)))) = VNum 3 /\
  _lastUpdateGen
    (fst (mergeAfter (B := SpecBase Ex.ten) (Ex.leaf Ex.ten 3)
            (Some (Node (Some Ex.ten) VUndef [])))) = VNum 3 /\
  _lastUpdateGen
    (fst (mergeAfter (B := SpecBase Ex.ten) (Ex.leaf Ex.ten 3) None))
    = VNum 3.
Proof.
  split; [|split].
  - refine (proj2 (proj2 (mergeAfter_falsy_incoming (SpecBase Ex.ten)
              (Ex.leaf Ex.ten 3) (Some (Ex.leaf Ex.ten 0)) eq_refl _))).
    right. reflexivity.
  - refine (proj2 (proj2 (mergeAfter_falsy_incoming (SpecBase Ex.ten)
              (Ex.leaf Ex.ten 3) (Some (Node (Some Ex.ten) VUndef []))
              eq_refl _))).
    left. reflexivity.
  - exact (proj2 (proj2 (mergeAfter_falsy_incoming (SpecBase Ex.ten)
              (Ex.leaf Ex.ten 3) None eq_refl I))).
Defined.

(** ** C9: the wrapped entry points *)

Section Wrapped.
Context {B : Base}.

Lemma rejuvenate_tracking (this : node) (t : Tree) :
  tree this = Some t -> truthy (lifeSpan t) = true ->
  _lastUpdateGen (rejuvenate this) = VNum (_currGen t).
Proof.
  intros Ht Hl. unfold rejuvenate. rewrite Ht, Hl.
  apply stamp_set_lastUpdateGen.
Qed.

Lemma traverse_eq (this : node) (args : Args) (props : option Props) :
  traverse this args props =
    let host := call_super super_traverse this args props in
    (if may_rejuvenate props then rejuvenate (fst host) else fst host,
     snd host).
Proof.
  unfold traverse. destruct (call_super _ _ _ _) as [this1 result].
  now destruct (may_rejuvenate props).
Qed.

Lemma getUncachedRange_eq (this : node) (args : Args) (props : option Props) :
  getUncachedRange this args props =
    let host := call_super super_getUncachedRange this args props in
    (if may_rejuvenate props then rejuvenate (fst host) else fst host,
     snd host).
Proof.
  unfold getUncachedRange. destruct (call_super _ _ _ _) as [this1 result].
  now destruct (may_rejuvenate props).
Qed.

End Wrapped.

(** C9.  [traverse] and [getUncachedRange] first run the host's operation,
    if it has one.  When [props] carries a truthy [doNotWither], the node
    is returned as the host's operation left it; otherwise it is
    rejuvenated after the host's operation, so that with generation
    tracking active its stamp is the tree's current generation on
    return. *)
Theorem wrapped_calls_rejuvenate (B : Base) (this : node) (args : Args)
    (props : option Props) :
  let after_traverse := call_super super_traverse this args props in
  let after_range := call_super super_getUncachedRange this args props in
  ((exists p, props = Some p /\ truthy (doNotWither p) = true) ->
   traverse this args props = after_traverse /\
   getUncachedRange this args props = after_range) /\
  (~ (exists p, props = Some p /\ truthy (doNotWither p) = true) ->
   traverse this args props
     = (rejuvenate (fst after_traverse), snd after_traverse) /\
   getUncachedRange this args props
     = (rejuvenate (fst after_range), snd after_range) /\
   (forall t,
      tree (fst after_traverse) = Some t -> truthy (lifeSpan t) = true ->
      _lastUpdateGen (fst (traverse this args props)) = VNum (_currGen t)) /\
   (forall t,
      tree (fst after_range) = Some t -> truthy (lifeSpan t) = true ->
      _lastUpdateGen (fst (getUncachedRange this args props))
        = VNum (_currGen t))).
Proof.
  intros after_traverse after_range.
  rewrite traverse_eq, getUncachedRange_eq. cbv zeta.
  fold after_traverse after_range. split.
  - intros (p & -> & Hflag). simpl. rewrite Hflag. simpl.
    now destruct after_traverse, after_range.
  - intros Hno.
    assert (may_rejuvenate props = true) as ->.
    { destruct props as [p|]; [|reflexivity]. simpl.
      destruct (truthy (doNotWither p)) eqn:Hflag; [|reflexivity].
      exfalso. apply Hno. eauto. }
    repeat split; intros t Ht Hl; simpl; now apply rejuvenate_tracking.
Qed.

(** A leaf stamped 5 at generation 20: a traversal with [doNotWither] leaves
    the stamp 5; a traversal without it, or an uncached-range call with no
    [props], leaves the stamp 20. *)
Lemma wrapped_calls_rejuvenate_cases :
  _lastUpdateGen
    (fst (traverse (B := SpecBase Ex.plain) (Ex.leaf Ex.plain 5) tt
            (Some (mkProps VUndef (VBool true))))) = VNum 5 /\
  _lastUpdateGen
    (fst (traverse (B := SpecBase Ex.plain) (Ex.leaf Ex.plain 5) tt
            (Some (mkProps VUndef VUndef)))) = VNum 20 /\
  _lastUpdateGen
    (fst (getUncachedRange (B := SpecBase Ex.plain) (Ex.leaf Ex.plain 5) tt
            None)) = VNum 20.
Proof.
  split; [|split].
  - destruct (proj1 (wrapped_calls_rejuvenate (SpecBase Ex.plain)
                       (Ex.leaf Ex.plain 5) tt
                       (Some (mkProps VUndef (VBool true)))))
      as [Ht _]; [eauto|].
    rewrite Ht. reflexivity.
  - destruct (proj2 (wrapped_calls_rejuvenate (SpecBase Ex.plain)
                       (Ex.leaf Ex.plain 5) tt
                       (Some (mkProps VUndef VUndef))))
      as (_ & _ & Ht & _).
    + intros (p & [= <-] & Hflag). discriminate.
    + exact (Ht Ex.plain eq_refl eq_refl).
  - destruct (proj2 (wrapped_calls_rejuvenate (SpecBase Ex.plain)
                       (Ex.leaf Ex.plain 5) tt None))
      as (_ & _ & _ & Hr).
    + intros (p & [=] & _).
    + exact (Hr Ex.plain eq_refl eq_refl).
Defined.

(** * Further properties of the mixin *)

(** ** The comparator as an order *)

Lemma older_iff (n : node) (g : value) :
  older n g <->
  exists t a b,
    tree n = Some t /\ truthy (lifeSpan t) = true /\
    to_number g = Some a /\ to_number (_lastUpdateGen n) = Some b /\
    a > b /\
    ((a <= _currGen t /\ b <= _currGen t) \/
     (a > _currGen t /\ b > _currGen t)).
Proof. unfold older. now rewrite genOlderThan_truthy, genOlderThan_true. Qed.

Lemma older_set_stamp (n : node) (own g : value) :
  older (set_lastUpdateGen n own) g <->
  exists t a b,
    tree n = Some t /\ truthy (lifeSpan t) = true /\
    to_number g = Some a /\ to_number own = Some b /\
    a > b /\
    ((a <= _currGen t /\ b <= _currGen t) \/
     (a > _currGen t /\ b > _currGen t)).
Proof.
  now rewrite older_iff, tree_set_lastUpdateGen, stamp_set_lastUpdateGen.
Qed.

Lemma older_trans (n : node) (g h : value) :
  older n g -> older (set_lastUpdateGen n g) h -> older n h.
Proof.
  rewrite older_set_stamp, !older_iff.
  intros (t & a & b & Ht & Hl & Ha & Hb & Hab & Hs)
         (t' & c & a' & Ht' & _ & Hc & Ha' & Hca & Hs').
  assert (t' = t) as -> by congruence.
  assert (a' = a) as -> by congruence.
  exists t, c, b. repeat (split; [assumption|]). split; lia.
Qed.

Lemma older_asym (n : node) (g : value) :
  older n g -> ~ older (set_lastUpdateGen n g) (_lastUpdateGen n).
Proof.
  rewrite older_set_stamp, older_iff.
  intros (t & a & b & Ht & Hl & Ha & Hb & Hab & Hs)
         (t' & b' & a' & _ & _ & Hb' & Ha' & Hba & _).
  assert (a' = a) as -> by congruence.
  assert (b' = b) as -> by congruence.
  lia.
Qed.

(** X1.  For the nodes of one tree, "is older than" is a strict order on
    stamps: a node that is older than the stamp [g] would, stamped [g], not
    be older than the stamp it has now; and a node older than [g] is older
    than every stamp [h] that a node stamped [g] is older than. *)
Theorem comparator_strict_order (n : node) (g : value) :
  older n g ->
  ~ older (set_lastUpdateGen n g) (_lastUpdateGen n) /\
  (forall h, older (set_lastUpdateGen n g) h -> older n h).
Proof.
  intros Hg. split.
  - now apply older_asym.
  - intros h. now apply older_trans.
Qed.

(** Stamps 3, 7 and 12 at generation 20. *)
Lemma comparator_strict_order_case :
  ~ older (Ex.leaf Ex.plain 7) (VNum 3) /\
  (older (Ex.leaf Ex.plain 7) (VNum 12) -> older (Ex.leaf Ex.plain 3) (VNum 12)).
Proof.
  destruct (comparator_strict_order (Ex.leaf Ex.plain 3) (VNum 7) eq_refl)
    as [Hasym Htrans].
  split; [exact Hasym|exact (Htrans (VNum 12))].
Defined.

(** ** The comparator against the cyclic age *)

Lemma age_mod (c m g : Z) :
  0 <= c < m -> 0 <= g < m -> age c m g = (c - g) mod m.
Proof.
  intros Hc Hg. unfold age. destruct (Z.geb_spec c g).
  - symmetry. apply Z.mod_small. lia.
  - apply (Z.mod_unique (c - g) m (-1)); lia.
Qed.

Lemma age_bounds (c m g : Z) :
  0 <= c < m -> 0 <= g < m -> 0 <= age c m g < m.
Proof.
  intros Hc Hg. rewrite age_mod by assumption. apply Z.mod_pos_bound. lia.
Qed.

(** X2.  With generation tracking active and clock and stamps in
    [[0, MAX_GENERATION)]: for two stamps on the same side of the current
    generation the comparator says "older" exactly when the own stamp has
    the greater cyclic age; for two stamps on opposite sides it says "not
    older" both ways, also when the own stamp, set before the clock
    wrapped, has the greater age. *)
Theorem comparator_vs_age (n : node) (t : Tree) (a b : Z) :
  tree n = Some t ->
  truthy (lifeSpan t) = true ->
  _lastUpdateGen n = VNum b ->
  0 <= _currGen t < MAX_GENERATION t ->
  0 <= a < MAX_GENERATION t ->
  0 <= b < MAX_GENERATION t ->
  ((a <= _currGen t /\ b <= _currGen t) \/
   (a > _currGen t /\ b > _currGen t) ->
   (older n (VNum a) <->
    age (_currGen t) (MAX_GENERATION t) a
      < age (_currGen t) (MAX_GENERATION t) b)) /\
  (a <= _currGen t < b ->
   ~ older n (VNum a) /\
   age (_currGen t) (MAX_GENERATION t) a
     < age (_currGen t) (MAX_GENERATION t) b) /\
  (b <= _currGen t < a ->
   ~ older n (VNum a) /\
   age (_currGen t) (MAX_GENERATION t) b
     < age (_currGen t) (MAX_GENERATION t) a).
Proof.
  intros Ht Hl Hown Hc Ha Hb.
  assert (older n (VNum a) <->
          a > b /\ ((a <= _currGen t /\ b <= _currGen t) \/
                    (a > _currGen t /\ b > _currGen t))) as Hold.
  { rewrite older_iff, Hown. split.
    - intros (t' & a' & b' & Ht' & _ & [= <-] & [= <-] & Hab & Hs).
      assert (t' = t) as -> by congruence. auto.
    - intros [Hab Hs]. exists t, a, b. auto 8. }
  rewrite Hold. unfold age.
  destruct (Z.geb_spec (_currGen t) a), (Z.geb_spec (_currGen t) b);
    repeat split; intros; lia.
Qed.

(** At generation 5 of 100: own stamp 98, other stamp 3. *)
Lemma comparator_vs_age_wrap :
  ~ older (Node (Some (mkTree 5 (VNum 10) false 100)) (VNum 98) []) (VNum 3) /\
  age 5 100 3 < age 5 100 98.
Proof.
  refine (proj1 (proj2 (comparator_vs_age
            (Node (Some (mkTree 5 (VNum 10) false 100)) (VNum 98) [])
            (mkTree 5 (VNum 10) false 100) 3 98
            eq_refl eq_refl eq_refl _ _ _)) _); cbn; lia.
Defined.

(** X3.  A merge across the wrap keeps the older stamp: when the receiver
    was stamped before the clock wrapped and the incoming node after it
    (stamps in range, the host's merge leaving the stamp alone), the
    receiver's stamp stays, although the incoming stamp is younger. *)
Theorem mergeAfter_across_wrap (B : Base) (this incoming : node) (t : Tree)
    (a b : Z) :
  merge_keeps_stamp this (Some incoming) ->
  tree this = Some t ->
  _lastUpdateGen this = VNum b ->
  _lastUpdateGen incoming = VNum a ->
  0 <= a <= _currGen t ->
  _currGen t < b < MAX_GENERATION t ->
  _lastUpdateGen (fst (mergeAfter this (Some incoming))) = VNum b /\
  age (_currGen t) (MAX_GENERATION t) a
    < age (_currGen t) (MAX_GENERATION t) b.
Proof.
  intros Hkeep Ht Hb Ha Hra Hrb. split.
  - rewrite mergeAfter_stamp by exact Hkeep.
    assert (truthy (_genOlderThan this (nodeGen this (Some incoming)))
            = false) as ->; [|now rewrite andb_false_r].
    unfold nodeGen. destruct (truthy (_lastUpdateGen incoming)).
    + destruct (truthy (_genOlderThan this (_lastUpdateGen incoming)))
        eqn:Hold; [|reflexivity].
      apply older_iff in Hold
        as (t' & a' & b' & _ & _ & Ha' & Hb' & Hab & _).
      rewrite Ha in Ha'. rewrite Hb in Hb'. simpl in *.
      injection Ha' as <-. injection Hb' as <-. lia.
    + now apply genOlderThan_own.
  - unfold age.
    destruct (Z.geb_spec (_currGen t) a), (Z.geb_spec (_currGen t) b); lia.
Qed.

(** Merging a node stamped 3 into a node stamped 98 at generation 5. *)
Lemma mergeAfter_across_wrap_case :
  _lastUpdateGen
    (fst (mergeAfter (B := SpecBase (mkTree 5 (VNum 10) false 100))
            (Ex.leaf (mkTree 5 (VNum 10) false 100) 98)
            (Some (Ex.leaf (mkTree 5 (VNum 10) false 100) 3)))) = VNum 98 /\
  age 5 100 3 < age 5 100 98.
Proof.
  refine (mergeAfter_across_wrap (SpecBase (mkTree 5 (VNum 10) false 100))
            (Ex.leaf (mkTree 5 (VNum 10) false 100) 98)
            (Ex.leaf (mkTree 5 (VNum 10) false 100) 3)
            (mkTree 5 (VNum 10) false 100) 3 98 _ eq_refl eq_refl eq_refl _ _).
  - split; reflexivity.
  - cbn; lia.
  - cbn; lia.
Defined.

(** ** The age test as a circular distance *)

(** X4.  With clock and stamp in [[0, MAX_GENERATION)] and
    [MAX_GENERATION] at most [2 ^ 53] (so that the doubles hold the sums
    and differences exactly), the age that [_shouldWither] tests is the
    circular distance [(currentGeneration - stamp) mod MAX_GENERATION]; it
    is below [MAX_GENERATION], so with [lifeSpan >= MAX_GENERATION - 1] no
    node is ever eligible. *)
Theorem shouldWither_circular (n : node) (t : Tree) (g l : Z) :
  tree n = Some t ->
  lifeSpan t = VNum l -> l <> 0 ->
  _lastUpdateGen n = VNum g ->
  0 <= _currGen t < MAX_GENERATION t ->
  0 <= g < MAX_GENERATION t ->
  MAX_GENERATION t <= 2 ^ 53 ->
  _shouldWither n =
    VBool (negb (first_child_young n)
           && ((_currGen t - g) mod MAX_GENERATION t >? l)) /\
  (MAX_GENERATION t - 1 <= l -> _shouldWither n = VBool false).
Proof.
  intros Ht Hl Hl0 Hg Hc Hr Hm.
  assert (_shouldWither n =
          VBool (negb (first_child_young n)
                 && ((_currGen t - g) mod MAX_GENERATION t >? l))) as Heq.
  { rewrite shouldWither_unfold, Ht, Hl, Hg. simpl.
    apply Z.eqb_neq in Hl0 as ->. simpl.
    rewrite (too_old_age t g l Hl) by (unfold exact_range; auto).
    rewrite age_mod by assumption. reflexivity. }
  split; [exact Heq|].
  intros Hbig. rewrite Heq.
  assert (((_currGen t - g) mod MAX_GENERATION t >? l) = false) as ->;
    [|now rewrite andb_false_r].
  pose proof (Z.mod_pos_bound (_currGen t - g) (MAX_GENERATION t)
                ltac:(lia)).
  rewrite Z.gtb_ltb. apply Z.ltb_ge. lia.
Qed.

(** At generation 2 of 100 a stamp of 95 is 7 generations old; with
    [lifeSpan = 99] nothing withers. *)
Lemma shouldWither_circular_case :
  _shouldWither (Node (Some (mkTree 2 (VNum 5) false 100)) (VNum 95) [])
    = VBool ((2 - 95) mod 100 >? 5) /\
  _shouldWither (Node (Some (mkTree 2 (VNum 99) false 100)) (VNum 3) [])
    = VBool false.
Proof.
  split.
  - refine (proj1 (shouldWither_circular
              (Node (Some (mkTree 2 (VNum 5) false 100)) (VNum 95) [])
              (mkTree 2 (VNum 5) false 100) 95 5
              eq_refl eq_refl _ eq_refl _ _ _)); cbn; lia.
  - refine (proj2 (shouldWither_circular
              (Node (Some (mkTree 2 (VNum 99) false 100)) (VNum 3) [])
              (mkTree 2 (VNum 99) false 100) 3 99
              eq_refl eq_refl _ eq_refl _ _ _) _); cbn; lia.
Defined.

(** ** Eligibility along the first children *)

(** X5.  A node that is eligible to wither has only eligible nodes on its
    chain of first children: clearing it never discards a first child, or a
    first child of a first child, that a sweep would have kept for its own
    age. *)
Theorem eligible_first_chain (n : node) :
  _shouldWither n = VBool true ->
  Forall (fun c => _shouldWither c = VBool true) (first_chain n).
Proof.
  remember (length (first_chain n)) as k eqn:Hk.
  revert n Hk. induction k as [|k IH]; intros n Hk He.
  - destruct (first_chain n); [constructor|discriminate].
  - destruct n as [tr g [|[| | |c] vs]]; try discriminate.
    injection Hk as Hk.
    assert (_shouldWither c = VBool true) as Hc.
    { destruct tr as [t|]; [|discriminate]. simpl in He.
      destruct (negb (truthy (lifeSpan t))); [discriminate|].
      destruct (shouldWither_bool c) as [[|] Hb]; [exact Hb|].
      rewrite Hb in He. discriminate. }
    simpl. constructor; [exact Hc|]. now apply IH.
Qed.

(** A parent of age 15 over a chain of two first children of ages 14 and
    13, the last holding a data object. *)
Lemma eligible_first_chain_case :
  Forall (fun c => _shouldWither c = VBool true)
    [Node (Some Ex.plain) (VNum 6) [SChild (Ex.leaf Ex.plain 7)];
     Ex.leaf Ex.plain 7].
Proof.
  exact (eligible_first_chain
           (Node (Some Ex.plain) (VNum 5)
              [SChild (Node (Some Ex.plain) (VNum 6)
                         [SChild (Ex.leaf Ex.plain 7)])])
           eq_refl).
Defined.

(** ** What the skew repair achieves *)

Lemma repair_step_cases (this : node) (s : slot) :
  (repair_step this s = set_lastUpdateGen this (slot_lastUpdateGen s) /\
   repair_looks_at s = true /\ older this (slot_lastUpdateGen s)) \/
  (repair_step this s = this /\
   (repair_looks_at s = true -> ~ older this (slot_lastUpdateGen s))).
Proof.
  unfold repair_step, repair_looks_at, older.
  destruct (slot_truthy (Some s) && is_number (slot_lastUpdateGen s)); simpl.
  - destruct (truthy (_genOlderThan this (slot_lastUpdateGen s))).
    + left. auto.
    + right. split; [reflexivity|]. intros _. discriminate.
  - right. split; [reflexivity|]. discriminate.
Qed.

Lemma not_older_own (n : node) (g : value) :
  ~ older (set_lastUpdateGen n g) g.
Proof.
  unfold older. rewrite genOlderThan_own; [discriminate|].
  now rewrite stamp_set_lastUpdateGen.
Qed.

Lemma repair_step_not_older (this : node) (s : slot) (v : value) :
  ~ older this v -> ~ older (repair_step this s) v.
Proof.
  intros Hv. destruct (repair_step_cases this s) as [(-> & _ & Hold)|[-> _]];
    [|exact Hv].
  intros Hnew. apply Hv. exact (older_trans _ _ _ Hold Hnew).
Qed.

Lemma fold_repair_not_older (l : list slot) (this : node) (v : value) :
  ~ older this v -> ~ older (fold_left repair_step l this) v.
Proof.
  revert this. induction l as [|s l IH]; intros this Hv; [exact Hv|].
  simpl. apply IH. now apply repair_step_not_older.
Qed.

Lemma fold_repair_covers (l : list slot) (this : node) (s : slot) :
  In s l -> repair_looks_at s = true ->
  ~ older (fold_left repair_step l this) (slot_lastUpdateGen s).
Proof.
  revert this. induction l as [|s' l IH]; intros this [].
  - subst s'. intros Hs. simpl. apply fold_repair_not_older.
    destruct (repair_step_cases this s) as [(-> & _ & _)|[-> Hno]].
    + apply not_older_own.
    + now apply Hno.
  - intros Hs. simpl. now apply IH.
Qed.

Lemma fold_repair_fixed (l : list slot) (this : node) :
  (forall s, In s l -> repair_looks_at s = true ->
     ~ older this (slot_lastUpdateGen s)) ->
  fold_left repair_step l this = this.
Proof.
  induction l as [|s l IH]; intros Hall; [reflexivity|].
  simpl. destruct (repair_step_cases this s) as [(_ & Hs & Hold)|[-> _]].
  - exfalso. exact (Hall s (or_introl eq_refl) Hs Hold).
  - apply IH. intros s' Hin. apply Hall. now right.
Qed.

(** X6.  The skew repair leaves the node's tree reference and slots as
    they are and leaves the node not older than the numeric stamp of any of
    its slots; running it again changes nothing. *)
Theorem skew_repair_not_older (this : node) :
  tree (skew_repair this) = tree this /\
  values (skew_repair this) = values this /\
  (forall s, In s (values this) -> repair_looks_at s = true ->
     ~ older (skew_repair this) (slot_lastUpdateGen s)) /\
  skew_repair (skew_repair this) = skew_repair this.
Proof.
  destruct (skew_repair_frame this) as [Ht Hv].
  assert (forall s, In s (values this) -> repair_looks_at s = true ->
            ~ older (skew_repair this) (slot_lastUpdateGen s)) as Hcov
    by (intros s; apply fold_repair_covers).
  split; [|split; [|split]]; try assumption.
  unfold skew_repair at 1. rewrite Hv. now apply fold_repair_fixed.
Qed.

(** ** Adopting a stamp never makes a node eligible *)

Lemma first_child_young_set_stamp (n : node) (g : value) :
  first_child_young (set_lastUpdateGen n g) = first_child_young n.
Proof. now destruct n. Qed.

Lemma adopt_keeps_young (n : node) (g : value) :
  older n g ->
  _shouldWither n = VBool false ->
  _shouldWither (set_lastUpdateGen n g) = VBool false.
Proof.
  intros (t & a & b & Ht & Hl & Ha & Hb & Hab & Hs)%older_iff.
  rewrite !shouldWither_unfold, tree_set_lastUpdateGen, Ht, Hl,
    first_child_young_set_stamp, stamp_set_lastUpdateGen. simpl.
  destruct (first_child_young n); [reflexivity|]. simpl.
  destruct (too_old t g) eqn:Hg; [|reflexivity].
  now rewrite (too_old_mono t g (_lastUpdateGen n) a b Ha Hb Hab Hs Hg).
Qed.

Lemma repair_step_keeps_young (this : node) (s : slot) :
  _shouldWither this = VBool false ->
  _shouldWither (repair_step this s) = VBool false.
Proof.
  intros Hy. destruct (repair_step_cases this s) as [(-> & _ & Hold)|[-> _]];
    [|exact Hy].
  now apply adopt_keeps_young.
Qed.

Section Rescue.
Context {B : Base}.

Lemma skew_repair_keeps_young (this : node) :
  _shouldWither this = VBool false ->
  _shouldWither (skew_repair this) = VBool false.
Proof.
  unfold skew_repair. generalize (values this) as l. intros l. revert this.
  induction l as [|s l IH]; intros this Hy; [exact Hy|].
  simpl. apply IH. now apply repair_step_keeps_young.
Qed.

Lemma mergeAfter_keeps_young (this : node) (nd : option node) :
  _shouldWither (fst (super_mergeAfter this nd)) = VBool false ->
  _shouldWither (fst (mergeAfter this nd)) = VBool false.
Proof.
  unfold mergeAfter. destruct (super_mergeAfter this nd) as [this1 result].
  simpl. intros Hy. destruct (res_truthy result); [|exact Hy].
  destruct (truthy (_genOlderThan this1 (nodeGen this nd))) eqn:Hold;
    [|exact Hy].
  simpl. now apply adopt_keeps_young.
Qed.

End Rescue.

(** X7.  Adopting a stamp only rescues: a node that is not eligible to
    wither is not eligible after the skew repair either, and a node that is
    not eligible after the host's merge is not eligible after the mixin's
    [mergeAfter]. *)
Theorem adoption_never_condemns (B : Base) (this : node) :
  (_shouldWither this = VBool false ->
   _shouldWither (skew_repair this) = VBool false) /\
  (forall nd,
     _shouldWither (fst (super_mergeAfter this nd)) = VBool false ->
     _shouldWither (fst (mergeAfter this nd)) = VBool false).
Proof.
  split.
  - apply skew_repair_keeps_young.
  - intros nd. apply mergeAfter_keeps_young.
Qed.

(** A leaf of age 10 under [lifeSpan = 10], repaired, and merged with a
    leaf of age 2. *)
Lemma adoption_never_condemns_case :
  _shouldWither (skew_repair (Ex.leaf Ex.linked 10)) = VBool false /\
  _shouldWither
    (fst (mergeAfter (B := SpecBase Ex.linked) (Ex.leaf Ex.linked 10)
            (Some (Ex.leaf Ex.linked 18)))) = VBool false.
Proof.
  destruct (adoption_never_condemns (SpecBase Ex.linked)
              (Ex.leaf Ex.linked 10)) as [Hr Hm].
  split.
  - exact (Hr eq_refl).
  - exact (Hm (Some (Ex.leaf Ex.linked 18)) eq_refl).
Defined.

(** The node [Ex.stale_parent]: repaired, it carries its child's stamp 18
    and is not older than it. *)
Lemma skew_repair_not_older_case :
  _lastUpdateGen (skew_repair (Ex.stale_parent Ex.linked)) = VNum 18 /\
  ~ older (skew_repair (Ex.stale_parent Ex.linked)) (VNum 18).
Proof.
  split; [reflexivity|].
  exact (proj1 (proj2 (proj2 (skew_repair_not_older
                                (Ex.stale_parent Ex.linked))))
           (SChild (Ex.leaf Ex.linked 18)) (or_intror (or_introl eq_refl))
           eq_refl).
Defined.

(** ** A node stamped with the current generation *)

Lemma current_stamp_safe (n : node) (t : Tree) (l : Z) :
  tree n = Some t -> lifeSpan t = VNum l -> 0 < l ->
  _lastUpdateGen n = VNum (_currGen t) ->
  (forall g, ~ older n g) /\
  _shouldWither n = VBool false /\
  skew_repair n = n /\
  repaired n = n.
Proof.
  intros Ht Hl Hpos Hg.
  assert (forall g, ~ older n g) as Hno.
  { intros g (t' & a & b & Ht' & _ & _ & Hb & Hab & Hs)%older_iff.
    assert (t' = t) as -> by congruence.
    rewrite Hg in Hb. injection Hb as <-. lia. }
  assert (skew_repair n = n) as Hfix
    by (apply fold_repair_fixed; intros s _ _; apply Hno).
  split; [|split; [|split]]; try assumption.
  - rewrite shouldWither_unfold, Ht, Hl, Hg. simpl.
    assert ((l =? 0) = false) as -> by (apply Z.eqb_neq; lia). simpl.
    rewrite (too_old_current t l Hl).
    assert ((0 >? l) = false) as ->
      by (rewrite Z.gtb_ltb; apply Z.ltb_ge; lia).
    now rewrite andb_false_r.
  - unfold repaired. rewrite Ht. now destruct (neighboringLinks t).
Qed.

(** X8.  With generation tracking active and a positive [lifeSpan], a node
    that was just rejuvenated is older than no stamp, is left alone by the
    skew repair, is not eligible to wither, and a [wither] on it goes to
    the child sweep without clearing it; so does a [wither] on the node a
    [traverse] without [doNotWither] returns. *)
Theorem rejuvenated_not_cleared (B : Base) (this : node) (t : Tree) (l : Z) :
  tree this = Some t -> lifeSpan t = VNum l -> 0 < l ->
  (forall g, ~ older (rejuvenate this) g) /\
  skew_repair (rejuvenate this) = rejuvenate this /\
  _shouldWither (rejuvenate this) = VBool false /\
  (forall fuel,
     wither (S fuel) (rejuvenate this) = sweep fuel (rejuvenate this) 0) /\
  (forall this0 args props fuel,
     may_rejuvenate props = true ->
     fst (call_super super_traverse this0 args props) = this ->
     wither (S fuel) (fst (traverse this0 args props))
       = sweep fuel (fst (traverse this0 args props)) 0).
Proof.
  intros Ht Hl Hpos.
  assert (rejuvenate this = set_lastUpdateGen this (VNum (_currGen t))) as Hr.
  { unfold rejuvenate. rewrite Ht, Hl. simpl.
    now assert ((l =? 0) = false) as -> by (apply Z.eqb_neq; lia). }
  destruct (current_stamp_safe (rejuvenate this) t l) as (Hno & Hy & Hfix & Hrep);
    try assumption.
  { now rewrite Hr, tree_set_lastUpdateGen. }
  { now rewrite Hr, stamp_set_lastUpdateGen. }
  assert (forall fuel,
            wither (S fuel) (rejuvenate this) = sweep fuel (rejuvenate this) 0)
    as Hw.
  { intros fuel. rewrite wither_sweep; rewrite ?Hrep; try reflexivity.
    - unfold has_tree. now rewrite Hr, tree_set_lastUpdateGen, Ht.
    - now rewrite Hy. }
  split; [|split; [|split; [|split]]]; try assumption.
  intros this0 args props fuel Hmay Hhost.
  rewrite traverse_eq. cbv zeta. rewrite Hmay, Hhost. simpl. apply Hw.
Qed.

(** A leaf of age 15 under [lifeSpan = 10], rejuvenated. *)
Lemma rejuvenated_not_cleared_case :
  _shouldWither (Ex.leaf Ex.plain 5) = VBool true /\
  _shouldWither (rejuvenate (Ex.leaf Ex.plain 5)) = VBool false.
Proof.
  split; [reflexivity|].
  exact (proj1 (proj2 (proj2 (rejuvenated_not_cleared (SpecBase Ex.plain)
            (Ex.leaf Ex.plain 5) Ex.plain 10 eq_refl eq_refl eq_refl)))).
Defined.

(** ** A node with no stamp *)

(** X9.  A node whose stamp is unset is older than no stamp and is never
    eligible to wither; the skew repair gives it no stamp, a [wither] on it
    goes to the child sweep without clearing it, and [mergeAfter] gives it
    no stamp when the host's merge gave it none. *)
Theorem unset_stamp_inert (B : Base) (this : node) :
  _lastUpdateGen this = VUndef ->
  (forall g, ~ older this g) /\
  _shouldWither this = VBool false /\
  skew_repair this = this /\
  (has_tree this = true ->
   forall fuel, wither (S fuel) this = sweep fuel this 0) /\
  (forall nd,
     _lastUpdateGen (fst (super_mergeAfter this nd)) = VUndef ->
     _lastUpdateGen (fst (mergeAfter this nd)) = VUndef).
Proof.
  intros Hg.
  assert (forall n g, _lastUpdateGen n = VUndef -> ~ older n g) as Hno.
  { intros n g Hn (t & a & b & _ & _ & _ & Hb & _)%older_iff.
    rewrite Hn in Hb. discriminate. }
  assert (skew_repair this = this) as Hfix
    by (apply fold_repair_fixed; intros s _ _; now apply Hno).
  assert (_shouldWither this = VBool false) as Hy.
  { rewrite shouldWither_unfold. destruct (tree this) as [t|]; [|reflexivity].
    destruct (negb (truthy (lifeSpan t))); [reflexivity|].
    unfold too_old. rewrite Hg. simpl. now rewrite andb_false_r. }
  split; [|split; [|split; [|split]]]; try assumption.
  - intros g. now apply Hno.
  - intros Ht fuel.
    assert (repaired this = this) as Hrep.
    { unfold repaired. destruct (tree this) as [t|]; [|reflexivity].
      now destruct (neighboringLinks t). }
    rewrite wither_sweep; rewrite ?Hrep; try reflexivity; try assumption.
    now rewrite Hy.
  - intros nd. unfold mergeAfter.
    destruct (super_mergeAfter this nd) as [this1 result]. simpl.
    intros H1. destruct (res_truthy result); [|exact H1].
    destruct (truthy (_genOlderThan this1 (nodeGen this nd))) eqn:Hold;
      [|exact H1].
    exfalso. exact (Hno this1 _ H1 Hold).
Qed.

(** A node with no stamp whose child was stamped 18. *)
Lemma unset_stamp_inert_case :
  skew_repair (Node (Some Ex.linked) VUndef [SChild (Ex.leaf Ex.linked 18)])
    = Node (Some Ex.linked) VUndef [SChild (Ex.leaf Ex.linked 18)] /\
  _shouldWither (Node (Some Ex.linked) VUndef [SChild (Ex.leaf Ex.linked 18)])
    = VBool false.
Proof.
  destruct (unset_stamp_inert (SpecBase Ex.linked)
              (Node (Some Ex.linked) VUndef [SChild (Ex.leaf Ex.linked 18)])
              eq_refl) as (_ & Hy & Hfix & _).
  split; [exact Hfix|exact Hy].
Defined.

(** ** The constructor *)

(** X10.  The constructor throws in exactly one case: it is called with no
    [props] on a node whose tree tracks generations (the stamp is then read
    from [props._currGen] through [undefined]). *)
Theorem constructor_throws_iff (B : Base) (props : option Props) :
  constructor props = Throw <->
  props = None /\ tracking (super_constructor None) = true.
Proof.
  unfold constructor. destruct props as [p|].
  - split; [|intros [[=] _]].
    destruct (truthy (p_currGen p)); simpl; [discriminate|].
    unfold tracking.
    destruct (tree (super_constructor (Some p))) as [t|]; [|discriminate].
    destruct (truthy (lifeSpan t)); discriminate.
  - simpl. destruct (tracking (super_constructor None)).
    + split; auto.
    + split; [discriminate|]. intros [_ [=]].
Qed.

(** X11.  Under active tracking with a positive [lifeSpan], a node
    constructed with [props] that carry no generation ([_currGen] absent
    or 0) is the host's node stamped with the tree's current generation;
    it is not eligible to wither and is older than no stamp. *)
Theorem constructor_fresh (B : Base) (p : Props) (t : Tree) (l : Z) :
  tree (super_constructor (Some p)) = Some t ->
  lifeSpan t = VNum l -> 0 < l ->
  truthy (p_currGen p) = false ->
  constructor (Some p)
    = Return (set_lastUpdateGen (super_constructor (Some p))
                (VNum (_currGen t))) /\
  _shouldWither (set_lastUpdateGen (super_constructor (Some p))
                   (VNum (_currGen t))) = VBool false /\
  (forall g,
     ~ older (set_lastUpdateGen (super_constructor (Some p))
                (VNum (_currGen t))) g).
Proof.
  intros Ht Hl Hpos Hp.
  destruct (current_stamp_safe
              (set_lastUpdateGen (super_constructor (Some p))
                 (VNum (_currGen t))) t l) as (Hno & Hy & _);
    try assumption.
  { now rewrite tree_set_lastUpdateGen. }
  { now rewrite stamp_set_lastUpdateGen. }
  split; [|split]; try assumption.
  unfold constructor, tracking. rewrite Hp, Ht, Hl. simpl.
  now assert ((l =? 0) = false) as -> by (apply Z.eqb_neq; lia).
Qed.

(** A node built with [props._currGen = 0] at generation 20. *)
Lemma constructor_fresh_case :
  constructor (B := SpecBase Ex.plain) (Some (mkProps (VNum 0) VUndef))
    = Return (Node (Some Ex.plain) (VNum 20) [SNull]).
Proof.
  exact (proj1 (constructor_fresh (SpecBase Ex.plain)
                  (mkProps (VNum 0) VUndef) Ex.plain 10
                  eq_refl eq_refl eq_refl eq_refl)).
Defined.

(** ** A node without child nodes *)

Section Leaves.
Context {B : Base}.

Lemma sweep_no_child_nodes (k : nat) :
  forall this index,
    Forall (fun s => witherable (Some s) = false) (values this) ->
    (childNum this - index <= k)%nat ->
    sweep (S k) this index = Some (Return (this, collapsed this)).
Proof.
  induction k as [|k IH]; intros this index Hall Hk.
  - apply sweep_exit. lia.
  - destruct (Nat.ltb_spec index (childNum this)) as [Hi|Hi].
    + destruct (lookup_lt_is_Some_2 (values this) index Hi) as [s Hs].
      rewrite sweep_skip; [apply IH; [exact Hall|lia]|exact Hi|].
      rewrite Hs. exact (Forall_lookup_1 _ _ _ _ Hall Hs).
    + now apply sweep_exit.
Qed.

End Leaves.

Lemma collapsed_iff (this : node) :
  collapsed this = true <-> values this = [SNull].
Proof.
  unfold collapsed, childNum. destruct (values this) as [|[| | |c] [|s l]];
    simpl; split; try discriminate; try reflexivity.
Qed.

(** X12.  On a node that is not eligible and holds no child nodes (only
    [null], [false] and objects without [wither]), [wither] calls neither
    [clear] nor [remove]: with fuel for one round per slot it returns the
    node as the skew repair left it, and it returns [true] exactly when the
    node's slots are the single [null]; a node with no slot at all
    returns [false]. *)
Theorem wither_without_child_nodes (B : Base) (this : node) :
  has_tree this = true ->
  truthy (_shouldWither (repaired this)) = false ->
  Forall (fun s => witherable (Some s) = false) (values this) ->
  forall fuel, (childNum this + 2 <= fuel)%nat ->
    exists r,
      wither fuel this = Some (Return (repaired this, r)) /\
      (r = true <-> values this = [SNull]).
Proof.
  intros Ht He Hall fuel Hfuel.
  destruct fuel as [|[|k]]; try lia.
  destruct (repaired_frame this) as [_ Hv].
  exists (collapsed (repaired this)). split.
  - rewrite wither_sweep by assumption.
    apply sweep_no_child_nodes; unfold childNum in *; rewrite Hv;
      [exact Hall|lia].
  - rewrite collapsed_iff, Hv. reflexivity.
Qed.

(** A young leaf holding one data object, one holding only [null], and
    one with no slot. *)
Lemma wither_without_child_nodes_cases :
  (exists r,
     wither (B := SpecBase Ex.plain) 3 (Ex.leaf Ex.plain 18)
       = Some (Return (Ex.leaf Ex.plain 18, r)) /\
     (r = true <-> [SObj VUndef VUndef] = [SNull])) /\
  (exists r,
     wither (B := SpecBase Ex.plain) 3 (Node (Some Ex.plain) (VNum 18) [SNull])
       = Some (Return (Node (Some Ex.plain) (VNum 18) [SNull], r)) /\
     (r = true <-> [SNull] = [SNull])) /\
  (exists r,
     wither (B := SpecBase Ex.plain) 2 (Node (Some Ex.plain) (VNum 18) [])
       = Some (Return (Node (Some Ex.plain) (VNum 18) [], r)) /\
     (r = true <-> @nil slot = [SNull])).
Proof.
  split; [|split].
  - refine (wither_without_child_nodes (SpecBase Ex.plain)
              (Ex.leaf Ex.plain 18) eq_refl eq_refl _ 3%nat _).
    + repeat constructor.
    + cbn. lia.
  - refine (wither_without_child_nodes (SpecBase Ex.plain)
              (Node (Some Ex.plain) (VNum 18) [SNull]) eq_refl eq_refl _
              3%nat _).
    + repeat constructor.
    + cbn. lia.
  - refine (wither_without_child_nodes (SpecBase Ex.plain)
              (Node (Some Ex.plain) (VNum 18) []) eq_refl eq_refl _
              2%nat _).
    + constructor.
    + cbn. lia.
Defined.
